(** * wplace-image-conversion: the image-transform pipeline of src/lib/functions.ts

    A shallow embedding of [adjustImageSize], [pixelateImage], [flattenAlpha],
    [findNearestPaletteColor], [floydSteinbergDither] and
    [quantizeToNearestColor], and the properties of the pipeline proved about it.

    Conventions.
    - A JavaScript [number] that holds an integer is a [Z]; the arithmetic of
      functions.ts that can leave the integers (the division [a / 255] of
      [flattenAlpha], the [err * 7 / 16] of the dither) is carried out on
      binary64 floats ([PrimFloat]), as the engine does.
    - [ImageData.data] is a [Uint8ClampedArray]: a [list Z] read with [!!] /
      [!!!] and written with [<[i:=v]>]; a write outside the array is dropped
      by a typed array, as it is by the list update.  Every value written goes
      through [ToUint8Clamp].  A read outside the array is [undefined]; where
      the code compares or searches with such a value the model follows the
      NaN it becomes ([flatten_pixel], [read_nearest]), and where it only
      feeds a store, that store is itself outside the array and dropped.
    - Palette entries and distances are integers in [Z]: the squares and sums
      of [findNearestPaletteColor] are exact in binary64 far beyond the range
      of a byte.
    - A function that can throw returns [option]; [None] is the TypeError of
      destructuring [undefined]. *)

From Stdlib Require Import ZArith Lia QArith Qround Qminmax Lqa.
From Stdlib Require Import PrimFloat FloatOps SpecFloat Uint63 String Ascii.
From stdpp Require Import base decidable option numbers list strings gmap.

Local Open Scope Z_scope.

(** ** JavaScript numbers *)

Module JS.

(** An integer as a binary64 number (exact for magnitudes below 2^53). *)
Definition Z2F (z : Z) : float :=
  if z <? 0 then PrimFloat.opp (PrimFloat.of_uint63 (Uint63.of_Z (- z)))
  else PrimFloat.of_uint63 (Uint63.of_Z z).

(** [Math.min] and [Math.max]: NaN if an argument is NaN. *)
Definition Math_min (a b : float) : float :=
  if PrimFloat.is_nan a || PrimFloat.is_nan b then PrimFloat.nan
  else if PrimFloat.ltb b a then b else a.

Definition Math_max (a b : float) : float :=
  if PrimFloat.is_nan a || PrimFloat.is_nan b then PrimFloat.nan
  else if PrimFloat.ltb a b then b else a.

(** [Math.round]: the nearest integer, a tie going towards +infinity.  A finite
    float is [± m * 2^e]; with [e < 0] the result is
    [floor (± m * 2^e + 1/2)], otherwise the number is integral already.
    (The sign of a zero result is not tracked: no caller observes it.) *)
Definition Math_round (x : float) : float :=
  match Prim2SF x with
  | S754_finite s m e =>
      if 0 <=? e then x
      else
        let n := if s then Z.neg m else Z.pos m in
        Z2F (Z.shiftr (2 * n + Z.shiftl 1 (- e)) (- e + 1))
  | _ => x
  end.

(** The largest integer of [0 .. 255] that is [<= x], for [0 <= x <= 255],
    found bit by bit from the top. *)
Fixpoint floor_bits (bits : list Z) (k : Z) (x : float) : Z :=
  match bits with
  | [] => k
  | b :: rest =>
      if PrimFloat.leb (Z2F (k + b)) x then floor_bits rest (k + b) x
      else floor_bits rest k x
  end.

Definition floor_byte (x : float) : Z :=
  floor_bits [128; 64; 32; 16; 8; 4; 2; 1] 0 x.

(** ECMAScript's ToUint8Clamp, the conversion of every store into a
    [Uint8ClampedArray]: NaN is 0, the value is clamped to [0, 255] and rounded
    to the nearest integer, a tie going to the even one. *)
Definition ToUint8Clamp (x : float) : Z :=
  if PrimFloat.is_nan x then 0
  else
    let clamped := Math_min (Math_max x 0%float) 255%float in
    let f := floor_byte clamped in
    let fh := PrimFloat.add (Z2F f) 0.5%float in
    if PrimFloat.ltb clamped fh then f
    else if PrimFloat.ltb fh clamped then f + 1
    else if Z.even f then f else f + 1.

(** [a <Infinity-or-number b]: the comparison [distance < minDistance] where
    [minDistance] starts as [Infinity] ([None]). *)
Definition lt_inf (a : Z) (b : option Z) : bool :=
  match b with
  | None => true
  | Some b' => a <? b'
  end.

End JS.

(** ** Data model *)

(** A palette entry, the [number[]] holding [r, g, b]. *)
Record color : Type := Color { cR : Z; cG : Z; cB : Z }.

Definition palette : Type := list color.

(** [ImageData]: the platform keeps [data.length = 4 * width * height]. *)
Record ImageData : Type := mkImageData {
  data : list Z;
  width : nat;
  height : nat
}.

Definition byte_ok (v : Z) : Prop := 0 <= v <= 255.

Definition color_ok (c : color) : Prop :=
  byte_ok (cR c) /\ byte_ok (cG c) /\ byte_ok (cB c).

Definition palette_ok (pal : palette) : Prop := Forall color_ok pal.

Definition wf_image (img : ImageData) : Prop :=
  length (data img) = (width img * height img * 4)%nat.

Definition bytes_ok (img : ImageData) : Prop := Forall byte_ok (data img).

(** ** adjustImageSize *)

Record Size : Type := mkSize { size_width : Z; size_height : Z }.

(** [Math.floor(a / b)] on integers is [a / b] in [Z] (floor division; the
    binary64 quotient of two integers below 2^52 never rounds up to the next
    integer). *)
Definition adjustImageSize (originalWidth originalHeight blockSize : Z) : Size :=
  let adjustedWidth := originalWidth / blockSize * blockSize in
  let adjustedHeight := originalHeight / blockSize * blockSize in
  {| size_width := Z.max adjustedWidth blockSize;
     size_height := Z.max adjustedHeight blockSize |}.

(** ** pixelateImage *)

Record Canvas : Type := mkCanvas {
  canvas_width : Z;
  canvas_height : Z;
  canvas_pixels : list Z
}.

Section Pixelate.
  (** The browser's part: whether [getContext('2d')] yields a context, and the
      pixels that [drawImage(src, 0, 0, w, h)] leaves in a cleared [w] x [h]
      destination with smoothing disabled. *)
  Variable getContext : Canvas -> bool.
  Variable drawImage : Canvas -> Z -> Z -> list Z.

(** The canvas after the call, and whether the call returned it
    ([false]: it returned [undefined]). *)
Definition pixelateImage (canvas : Canvas) (blockSize : Z) : Canvas * bool :=
  if blockSize <=? 1 then (canvas, false)
  else
    let originalWidth := canvas_width canvas in
    let originalHeight := canvas_height canvas in
    let smallWidth := Z.max 1 (originalWidth / blockSize) in
    let smallHeight := Z.max 1 (originalHeight / blockSize) in
    let tempCanvas := mkCanvas smallWidth smallHeight [] in
    if negb (getContext canvas) || negb (getContext tempCanvas) then (canvas, false)
    else
      let tempCanvas' :=
        mkCanvas smallWidth smallHeight (drawImage canvas smallWidth smallHeight) in
      (mkCanvas originalWidth originalHeight
         (drawImage tempCanvas' originalWidth originalHeight), true).
End Pixelate.

(** ** findNearestPaletteColor *)

Definition distance (r g b : Z) (c : color) : Z :=
  (r - cR c) ^ 2 + (g - cG c) ^ 2 + (b - cB c) ^ 2.

(** One turn of [for (const color of palette)] on the pair
    [(minDistance, nearestColor)]. *)
Definition nearest_step (r g b : Z) (st : option Z * option color) (c : color)
  : option Z * option color :=
  let '(minDistance, nearestColor) := st in
  if JS.lt_inf (distance r g b c) minDistance then (Some (distance r g b c), Some c)
  else (minDistance, nearestColor).

(** [None] is [undefined], returned for the empty palette ([palette[0]]). *)
Definition findNearestPaletteColor (r g b : Z) (pal : palette) : option color :=
  snd (foldl (nearest_step r g b) (None, head pal) pal).

(** What the loop holds after a non-empty run of entries: the first entry of
    least distance. *)
Definition first_nearest (r g b : Z) (l : palette) (i : nat) (c : color) : Prop :=
  l !! i = Some c /\
  (forall j c', l !! j = Some c' -> distance r g b c <= distance r g b c') /\
  (forall j c', l !! j = Some c' -> distance r g b c' = distance r g b c -> (i <= j)%nat).

(** The call [findNearestPaletteColor(data[i], data[i + 1], data[i + 2], palette)]
    on what the array yields.  A read past the end is [undefined]: every
    distance is then NaN, no comparison [distance < minDistance] holds, and the
    initial [palette[0]] is returned. *)
Definition read_nearest (oR oG oB : option Z) (pal : palette) : option color :=
  match oR, oG, oB with
  | Some r, Some g, Some b => findNearestPaletteColor r g b pal
  | _, _, _ => head pal
  end.

(** ** Stores into the pixel array *)

(** [data[i] = v] for an integer [v]. *)
Definition store (v : Z) : Z := JS.ToUint8Clamp (JS.Z2F v).

(** The offsets [i = 0, 4, 8, ...] visited by
    [for (let i = 0; i < data.length; i += 4)]. *)
Definition pixel_offsets (len : nat) : list nat :=
  (fun k => 4 * k)%nat <$> seq 0 ((len + 3) / 4)%nat.

(** A loop whose body can throw. *)
Fixpoint for_each {A : Type} (body : A -> nat -> option A) (a : A) (l : list nat)
  : option A :=
  match l with
  | [] => Some a
  | i :: l' => a' ← body a i; for_each body a' l'
  end.

(** ** flattenAlpha *)

(** [Math.round(c * alpha + 255 * (1 - alpha))] with [alpha = a / 255], stored
    into the array. *)
Definition blend (c a : Z) : Z :=
  let alpha := PrimFloat.div (JS.Z2F a) 255%float in
  JS.ToUint8Clamp
    (JS.Math_round
       (PrimFloat.add (PrimFloat.mul (JS.Z2F c) alpha)
          (PrimFloat.mul 255%float (PrimFloat.sub 1%float alpha)))).

(** The loop body at offset [i].  [data[i + 3]] is [undefined] past the end,
    and [undefined < 255] is false. *)
Definition flatten_pixel (d : list Z) (i : nat) : list Z :=
  match d !! (i + 3)%nat with
  | Some a =>
      if a <? 255 then
        let r := d !!! i in
        let g := d !!! (i + 1)%nat in
        let b := d !!! (i + 2)%nat in
        <[(i + 3)%nat := store 255]>
          (<[(i + 2)%nat := blend b a]>
             (<[(i + 1)%nat := blend g a]>
                (<[i := blend r a]> d)))
      else d
  | None => d
  end.

(** The image after the call (the function mutates [imageData.data] and
    returns nothing). *)
Definition flattenAlpha (img : ImageData) : ImageData :=
  mkImageData
    (foldl flatten_pixel (data img) (pixel_offsets (length (data img))))
    (width img) (height img).

(** ** quantizeToNearestColor *)

Definition quantize_pixel (pal : palette) (d : list Z) (i : nat) : option (list Z) :=
  c ← read_nearest (d !! i) (d !! (i + 1)%nat) (d !! (i + 2)%nat) pal;
  Some (<[(i + 2)%nat := store (cB c)]>
          (<[(i + 1)%nat := store (cG c)]>
             (<[i := store (cR c)]> d))).

(** The loop body once the search is known to return an entry. *)
Definition quantize_body (pal : palette) (d : list Z) (i : nat) : list Z :=
  default d (quantize_pixel pal d i).

Definition quantizeToNearestColor (img : ImageData) (pal : palette) : option ImageData :=
  d ← for_each (quantize_pixel pal) (data img) (pixel_offsets (length (data img)));
  Some (mkImageData d (width img) (height img)).

(** ** floydSteinbergDither *)

(** [data[k] = Math.max(0, Math.min(255, data[k] + err * w / 16))]: the value
    that the store leaves in the array. *)
Definition fs_store (v err w : Z) : Z :=
  JS.ToUint8Clamp
    (JS.Math_max 0%float
       (JS.Math_min 255%float
          (PrimFloat.add (JS.Z2F v)
             (PrimFloat.div (PrimFloat.mul (JS.Z2F err) (JS.Z2F w)) 16%float)))).

(** The three stores at a neighbour whose first byte is at [n]. *)
Definition diffuse (d : list Z) (n : nat) (errR errG errB w : Z) : list Z :=
  let d1 := <[n := fs_store (d !!! n) errR w]> d in
  let d2 := <[(n + 1)%nat := fs_store (d1 !!! (n + 1)%nat) errG w]> d1 in
  <[(n + 2)%nat := fs_store (d2 !!! (n + 2)%nat) errB w]> d2.

(** Channel [ch] (0, 1, 2) of three values. *)
Definition pick (ch : nat) (vR vG vB : Z) : Z :=
  match ch with
  | O => vR
  | S O => vG
  | _ => vB
  end.

Definition channel (c : color) (ch : nat) : Z := pick ch (cR c) (cG c) (cB c).

(** The stores of the loop body at [(x, y)], [c] being the entry
    [[newR, newG, newB]] that the search returned. *)
Definition dither_update (c : color) (width height y : nat) (d : list Z) (x : nat)
  : list Z :=
  let idx := ((y * width + x) * 4)%nat in
  let oldR := d !!! idx in
  let oldG := d !!! (idx + 1)%nat in
  let oldB := d !!! (idx + 2)%nat in
  let d := <[(idx + 2)%nat := store (cB c)]>
             (<[(idx + 1)%nat := store (cG c)]>
                (<[idx := store (cR c)]> d)) in
  let errR := oldR - cR c in
  let errG := oldG - cG c in
  let errB := oldB - cB c in
  let d :=
    if decide (x + 1 < width)%nat
    then diffuse d ((y * width + x + 1) * 4)%nat errR errG errB 7
    else d in
  let d :=
    if decide (y + 1 < height)%nat then
      let d :=
        if decide (0 < x)%nat
        then diffuse d (((y + 1) * width + x - 1) * 4)%nat errR errG errB 3
        else d in
      let d := diffuse d (((y + 1) * width + x) * 4)%nat errR errG errB 5 in
      if decide (x + 1 < width)%nat
      then diffuse d (((y + 1) * width + x + 1) * 4)%nat errR errG errB 1
      else d
    else d in
  d.

(** The body of the two loops at [(x, y)]; destructuring the result of the
    search throws when the palette is empty. *)
Definition dither_pixel (pal : palette) (width height y : nat) (d : list Z) (x : nat)
  : option (list Z) :=
  let idx := ((y * width + x) * 4)%nat in
  c ← read_nearest (d !! idx) (d !! (idx + 1)%nat) (d !! (idx + 2)%nat) pal;
  Some (dither_update c width height y d x).

Definition dither_row (pal : palette) (width height : nat) (d : list Z) (y : nat)
  : option (list Z) :=
  for_each (dither_pixel pal width height y) d (seq 0 width).

(** The result is a new [ImageData] over a copy of the input's bytes. *)
Definition floydSteinbergDither (img : ImageData) (pal : palette) : option ImageData :=
  d ← for_each (dither_row pal (width img) (height img)) (data img) (seq 0 (height img));
  Some (mkImageData d (width img) (height img)).

(** ** Reading pixels *)

(** The four bytes of pixel [k], when the array holds them. *)
Definition pixel_at (d : list Z) (k : nat) : option (Z * Z * Z * Z) :=
  r ← d !! (4 * k)%nat;
  g ← d !! (4 * k + 1)%nat;
  b ← d !! (4 * k + 2)%nat;
  a ← d !! (4 * k + 3)%nat;
  Some (r, g, b, a).

(** ** Exact descriptions of the arithmetic *)

(** The formula of the flattener on exact rationals, rounded to the nearest
    integer: [round(c * (a/255) + 255 * (1 - a/255))]. *)
Definition flatten_formula (c a : Z) : Z :=
  Qfloor (inject_Z c * (a # 255) + inject_Z 255 * (1 - (a # 255)) + (1 # 2))%Q.

(** [v + err * w / 16] in sixteenths, clamped to [0, 255] and rounded to the
    nearest integer, a tie going to the even one. *)
Definition fs_exact (v err w : Z) : Z :=
  let n := Z.max 0 (Z.min (255 * 16) (16 * v + err * w)) in
  let f := n / 16 in
  let r := n mod 16 in
  if r <? 8 then f else if 8 <? r then f + 1 else if Z.even f then f else f + 1.

(** The Floyd-Steinberg kernel: the weight (in sixteenths) that the pixel at
    [(x, y)] sends to the pixel at [(x', y')]. *)
Definition fs_weight (x y x' y' : nat) : option Z :=
  if decide (x' = x + 1 /\ y' = y)%nat then Some 7
  else if decide (x' + 1 = x /\ y' = y + 1)%nat then Some 3
  else if decide (x' = x /\ y' = y + 1)%nat then Some 5
  else if decide (x' = x + 1 /\ y' = y + 1)%nat then Some 1
  else None.

(** [r] is an integer nearest to [n / 16], the even one at a tie. *)
Definition nearest_sixteenth (n r : Z) : bool :=
  let dist := Z.abs (16 * r - n) in
  (dist <? 8) || ((dist =? 8) && Z.even r).

(** The byte stored by the dither is the rounding of the clamped sum. *)
Definition fs_ok (v err w : Z) : bool :=
  nearest_sixteenth (Z.max 0 (Z.min (255 * 16) (16 * v + err * w))) (fs_store v err w).

(** The byte stored by the flattener is within 1/2 of the exact blend
    [(c * a + 255 * (255 - a)) / 255]. *)
Definition blend_ok (c a : Z) : bool :=
  2 * Z.abs (255 * blend c a - (c * a + 255 * (255 - a))) <? 255.

(** [f] holds on the [n] integers from [z] on. *)
Fixpoint range_all (n : nat) (z : Z) (f : Z -> bool) : bool :=
  match n with
  | O => true
  | S k => f z && range_all k (z + 1) f
  end.

(** ** Invariants of the dither loops *)

(** Every alpha byte is the one of the input [d0]. *)
Definition alpha_kept (d0 : list Z) (p : nat) (d : list Z) : Prop :=
  forall k, d !! (4 * k + 3)%nat = d0 !! (4 * k + 3)%nat.

(** Pixel [q] holds the RGB of a palette entry. *)
Definition palette_pixel (pal : palette) (d : list Z) (q : nat) : Prop :=
  exists c, c ∈ pal /\
    d !! (4 * q)%nat = Some (cR c) /\ d !! (4 * q + 1)%nat = Some (cG c) /\
    d !! (4 * q + 2)%nat = Some (cB c).

(** The first [p] pixels in raster order hold palette entries. *)
Definition visited_in_palette (pal : palette) (len : nat) (p : nat) (d : list Z) : Prop :=
  length d = len /\ forall q, (q < p)%nat -> palette_pixel pal d q.

(** * The application around the pipeline: rgbToHex and src/App.tsx

    Further conventions.
    - A JavaScript string is a [string] of code units below 256, which covers
      the colour strings handled here.
    - [selectedColors] is a [gmap string bool] of the object's own properties,
      all of them booleans; a key that is not an own property is looked up in
      [Object.prototype] ([isSelected], [assignProperty]).
    - The palette tables [DEFAULT_COLORS] and [SELECTABLE_COLORS] of
      [@/lib/palette] are parameters of the definitions that read them.
    - Screen coordinates, sizes and the zoom level are rationals in [Q]: they
      are integers, halves of integers and the products of integers with a
      zoom level of the menu (0.5, 1, 2, 4, 8, 10), on which the binary64
      arithmetic of the handlers is exact.
    - The state of a component is a record; a handler is a function from the
      state it was rendered with to the state after its updates. *)

(** ** rgbToHex *)

(** ToInt32, and [a << k] on 32-bit integers. *)
Definition ToInt32 (z : Z) : Z :=
  let m := z mod 2 ^ 32 in
  if m <? 2 ^ 31 then m else m - 2 ^ 32.

Definition shiftLeft (a k : Z) : Z := ToInt32 (ToInt32 a * 2 ^ (k mod 32)).

(** The digit of [d] in [0 .. 15], lower case as [Number.prototype.toString]
    writes it. *)
Definition hex_digit (d : Z) : ascii :=
  match d with
  | 0 => "0" | 1 => "1" | 2 => "2" | 3 => "3" | 4 => "4" | 5 => "5" | 6 => "6" | 7 => "7"
  | 8 => "8" | 9 => "9" | 10 => "a" | 11 => "b" | 12 => "c" | 13 => "d" | 14 => "e"
  | _ => "f"
  end%char.

(** The digits of [n >= 0] in base 16, most significant first, put before
    [acc]; [fuel] bounds the number of digits. *)
Fixpoint hex_go (fuel : nat) (n : Z) (acc : string) : string :=
  match fuel with
  | O => acc
  | S fuel' =>
      let acc' := String (hex_digit (n mod 16)) acc in
      if n <? 16 then acc' else hex_go fuel' (n / 16) acc'
  end.

(** [n.toString(16)] for an integer [n]; a number of [k] bits has at most [k]
    digits. *)
Definition toString16 (n : Z) : string :=
  if n <? 0 then String "-"%char (hex_go (S (Z.to_nat (Z.log2 (- n)))) (- n) EmptyString)
  else hex_go (S (Z.to_nat (Z.log2 n))) n EmptyString.

(** [s.slice(start, end)] for [0 <= start <= end]; [s.slice(start)] is
    [slice s start (length s)]. *)
Definition slice (s : string) (start end_ : nat) : string :=
  String.substring start (end_ - start) s.

Definition rgbToHex (r g b : Z) : string :=
  let s := toString16 (shiftLeft 1 24 + shiftLeft r 16 + shiftLeft g 8 + b) in
  String "#"%char (slice s 1 (String.length s)).

(** Two digits, zero-padded: the byte [v] in base 16. *)
Definition hex2 (v : Z) : string :=
  String (hex_digit (v / 16)) (String (hex_digit (v mod 16)) EmptyString).

(** ** processImage: from HEX to RGB *)

(** StrWhiteSpaceChar among the code units below 256. *)
Definition is_whitespace (c : ascii) : bool :=
  let n := Z.of_nat (nat_of_ascii c) in
  (n =? 9) || (n =? 10) || (n =? 11) || (n =? 12) || (n =? 13) || (n =? 32) || (n =? 160).

Fixpoint trim_start (s : string) : string :=
  match s with
  | String c s' => if is_whitespace c then trim_start s' else s
  | EmptyString => EmptyString
  end.

(** The value of a digit of base 16, in either case. *)
Definition digit_value (c : ascii) : option Z :=
  let n := Z.of_nat (nat_of_ascii c) in
  if (48 <=? n) && (n <=? 57) then Some (n - 48)
  else if (97 <=? n) && (n <=? 102) then Some (n - 87)
  else if (65 <=? n) && (n <=? 70) then Some (n - 55)
  else None.

(** The value of the longest prefix of base-16 digits, after [acc]; [None]
    when no digit has been read. *)
Fixpoint parse_digits (s : string) (acc : option Z) : option Z :=
  match s with
  | String c s' =>
      match digit_value c with
      | Some v => parse_digits s' (Some (16 * default 0 acc + v))
      | None => acc
      end
  | EmptyString => acc
  end.

(** [parseInt(s, 16)]: leading white space, a sign and a [0x] prefix are
    skipped, then the longest run of digits is read; [None] is NaN.  The value
    is exact, as it is in the engine for the two-character slices parsed
    here. *)
Definition parseInt16 (s : string) : option Z :=
  let s := trim_start s in
  let '(sign, s) :=
    match s with
    | String "-"%char t => (-1, t)
    | String "+"%char t => (1, t)
    | _ => (1, s)
    end in
  let s :=
    match s with
    | String "0"%char (String "x"%char t) => t
    | String "0"%char (String "X"%char t) => t
    | _ => s
    end in
  v ← parse_digits s None; Some (sign * v).

(** [c => [parseInt(c.hex.slice(1, 3), 16), ...]] on the string [c.hex]. *)
Definition hexToRGB (hex : string) : option Z * option Z * option Z :=
  (parseInt16 (slice hex 1 3), parseInt16 (slice hex 3 5), parseInt16 (slice hex 5 7)).

(** [#RRGGBB]: a number sign and six digits of base 16, in either case. *)
Definition is_hex_color (s : string) : bool :=
  match s with
  | String "#" (String c1 (String c2 (String c3 (String c4 (String c5
      (String c6 EmptyString)))))) =>
      bool_decide (is_Some (digit_value c1)) && bool_decide (is_Some (digit_value c2))
      && bool_decide (is_Some (digit_value c3)) && bool_decide (is_Some (digit_value c4))
      && bool_decide (is_Some (digit_value c5)) && bool_decide (is_Some (digit_value c6))
  | _ => false
  end.

(** Checks over all bytes and all character codes. *)
Definition parses_to (s : string) (v : Z) : bool :=
  match parseInt16 s with
  | Some x => x =? v
  | None => false
  end.

Definition all_ascii (f : ascii -> bool) : bool :=
  forallb (fun n => f (ascii_of_nat n)) (seq 0 256).

Definition two_digits_ok (c1 c2 : ascii) : bool :=
  match digit_value c1, digit_value c2 with
  | Some v1, Some v2 =>
      parses_to (String c1 (String c2 EmptyString)) (16 * v1 + v2)
      && (0 <=? v1) && (v1 <? 16) && (0 <=? v2) && (v2 <? 16)
  | _, _ => true
  end.

(** ** processImage: the palette, and SelectColors *)

(** An entry of [DEFAULT_COLORS] or [SELECTABLE_COLORS]. *)
Record paletteColor : Type := mkPaletteColor { name : string; hex : string }.

(** The property names of [Object.prototype], which every object written as a
    literal inherits: its methods, and the accessor [__proto__]. *)
Definition Object_prototype_names : list string :=
  ["constructor"; "hasOwnProperty"; "isPrototypeOf"; "propertyIsEnumerable";
   "toLocaleString"; "toString"; "valueOf"; "__proto__";
   "__defineGetter__"; "__defineSetter__"; "__lookupGetter__"; "__lookupSetter__"]%string.

Definition inherited (key : string) : bool := bool_decide (key ∈ Object_prototype_names).

(** [selectedColors[name]] as a condition.  An own property gives its boolean;
    otherwise the lookup goes on to [Object.prototype], whose members are
    functions, or under [__proto__] the prototype itself: all truthy; any
    other name gives [undefined], which is falsy. *)
Definition isSelected (selectedColors : gmap string bool) (colorName : string) : bool :=
  match selectedColors !! colorName with
  | Some selected => selected
  | None => inherited colorName
  end.

(** [state[key] = value] for a boolean [value]: the own property is set or
    created, except that with no own [__proto__] the assignment reaches the
    setter of [Object.prototype], which ignores a value that is not an
    object. *)
Definition assignProperty (key : string) (value : bool) (state : gmap string bool)
  : gmap string bool :=
  if decide (key = "__proto__"%string /\ state !! key = None) then state
  else <[key := value]> state.

(** The initial state of [selectedColors]: every selectable colour assigned
    [true]. *)
Definition initialSelectedColors (SELECTABLE_COLORS : list paletteColor) : gmap string bool :=
  foldl (fun initialState color => assignProperty (name color) true initialState)
    ∅ SELECTABLE_COLORS.

(** [{...prev, [colorName]: !prev[colorName]}]: the own properties of [prev],
    then the computed key, which defines an own property whatever its name. *)
Definition handleColorSelectionChange (colorName : string) (prev : gmap string bool)
  : gmap string bool :=
  <[colorName := negb (isSelected prev colorName)]> prev.

(** [Object.keys(prev)]: the own keys; their order does not reach the result
    of the loops below. *)
Definition Object_keys (prev : gmap string bool) : list string := (map_to_list prev).*1.

Definition selectAllColor (prev : gmap string bool) : gmap string bool :=
  foldl (fun state color => assignProperty color true state) ∅ (Object_keys prev).

Definition deselectAllColors (prev : gmap string bool) : gmap string bool :=
  foldl (fun state color => assignProperty color false state) ∅ (Object_keys prev).

(** [finalPalette]: a copy of the default colours, then every selected
    selectable colour pushed in turn. *)
Definition finalPalette (DEFAULT_COLORS SELECTABLE_COLORS : list paletteColor)
    (selectedColors : gmap string bool) : list paletteColor :=
  foldl (fun finalPalette color =>
           if isSelected selectedColors (name color) then finalPalette ++ [color]
           else finalPalette)
    DEFAULT_COLORS SELECTABLE_COLORS.

(** [finalPaletteRGB]: the triple of every palette entry. *)
Definition finalPaletteRGB (finalPalette : list paletteColor)
  : list (option Z * option Z * option Z) :=
  (fun c => hexToRGB (hex c)) <$> finalPalette.

(** A triple without NaN as a colour of the functions of functions.ts, and a
    list of such triples as their palette. *)
Definition numericColor (t : option Z * option Z * option Z) : option color :=
  match t with
  | (Some r, Some g, Some b) => Some (Color r g b)
  | _ => None
  end.

Definition numericPalette (l : list (option Z * option Z * option Z)) : option palette :=
  mapM numericColor l.

(** ** processImage: block size, crop and colour stage *)

(** [ditherChecked || noPixelateChecked ? 1 : blockSize]. *)
Definition effectiveBlockSize (ditherChecked noPixelateChecked : bool) (blockSize : Z) : Z :=
  if ditherChecked || noPixelateChecked then 1 else blockSize.

(** [offsetX] and [offsetY]: half the difference of the original and the
    adjusted size, a number that may be half-way between two integers. *)
Definition cropOffsets (originalWidth originalHeight : Z) (adjustedSize : Size) : Q * Q :=
  ((originalWidth - size_width adjustedSize) # 2,
   (originalHeight - size_height adjustedSize) # 2).

(** The colour stage: [flattenAlpha(imageData)], then the dither or the
    quantizer by [ditherChecked]. *)
Definition colorStage (ditherChecked : bool) (imageData : ImageData)
    (finalPaletteRGB : palette) : option ImageData :=
  let imageData := flattenAlpha imageData in
  if ditherChecked then floydSteinbergDither imageData finalPaletteRGB
  else quantizeToNearestColor imageData finalPaletteRGB.

(** ** ImagePreview: dragging and zooming the canvas *)

Record Point : Type := mkPoint { point_x : Q; point_y : Q }.

(** The state of ImagePreview that places the canvas; the tooltip state
    [colorInfo] is set beside it and never read by the code below.  The canvas
    and its container are mounted when a handler runs. *)
Record PreviewState : Type := mkPreviewState {
  zoomLevel : Q;
  isDragging : bool;
  dragStart : Point;
  canvasPosition : Point;
  initialPosition : Point
}.

(** One axis of the placement, as every handler writes it out: a canvas larger
    than the container is kept over it, a smaller one is centred. *)
Definition placeAxis (canvasSize containerSize newPos : Q) : Q :=
  if Qlt_le_dec containerSize canvasSize then
    let minPos := (containerSize - canvasSize)%Q in
    Qmax minPos (Qmin newPos 0)
  else ((containerSize - canvasSize) / 2)%Q.

(** [processedWidth], [processedHeight]: the size of the processed canvas;
    [containerWidth], [containerHeight]: the client size of the container. *)
Definition handleZoomChange (newZoomLevel : Q)
    (processedWidth processedHeight containerWidth containerHeight : Q) (st : PreviewState)
  : PreviewState :=
  let newCanvasWidth := (processedWidth * newZoomLevel)%Q in
  let newCanvasHeight := (processedHeight * newZoomLevel)%Q in
  let newX := placeAxis newCanvasWidth containerWidth (point_x (canvasPosition st)) in
  let newY := placeAxis newCanvasHeight containerHeight (point_y (canvasPosition st)) in
  mkPreviewState newZoomLevel (isDragging st) (dragStart st)
    (mkPoint newX newY) (mkPoint newX newY).

(** The part of [handleMouseMove] that moves the canvas.  [canvasWidth],
    [canvasHeight]: the size of the displayed canvas; [containerWidth],
    [containerHeight]: the client size of its container. *)
Definition handleMouseMove (clientX clientY : Q)
    (canvasWidth canvasHeight containerWidth containerHeight : Q) (st : PreviewState)
  : PreviewState :=
  if isDragging st then
    let newX := (point_x (initialPosition st) + (clientX - point_x (dragStart st)))%Q in
    let newY := (point_y (initialPosition st) + (clientY - point_y (dragStart st)))%Q in
    mkPreviewState (zoomLevel st) (isDragging st) (dragStart st)
      (mkPoint (placeAxis canvasWidth containerWidth newX)
               (placeAxis canvasHeight containerHeight newY))
      (initialPosition st)
  else st.

Definition handleMouseDown (clientX clientY : Q) (st : PreviewState) : PreviewState :=
  mkPreviewState (zoomLevel st) true (mkPoint clientX clientY)
    (canvasPosition st) (initialPosition st).

Definition handleMouseUp (st : PreviewState) : PreviewState :=
  if isDragging st then
    mkPreviewState (zoomLevel st) false (dragStart st) (canvasPosition st) (canvasPosition st)
  else st.

Definition handleMouseLeave (st : PreviewState) : PreviewState :=
  if isDragging st then
    mkPreviewState (zoomLevel st) false (dragStart st) (canvasPosition st) (canvasPosition st)
  else st.

Definition handleTouchStart (clientX clientY : Q) (st : PreviewState) : PreviewState :=
  mkPreviewState (zoomLevel st) true (mkPoint clientX clientY)
    (canvasPosition st) (initialPosition st).

Definition handleTouchMove (clientX clientY : Q)
    (canvasWidth canvasHeight containerWidth containerHeight : Q) (st : PreviewState)
  : PreviewState :=
  if isDragging st then
    let newX := (point_x (initialPosition st) + (clientX - point_x (dragStart st)))%Q in
    let newY := (point_y (initialPosition st) + (clientY - point_y (dragStart st)))%Q in
    mkPreviewState (zoomLevel st) (isDragging st) (dragStart st)
      (mkPoint (placeAxis canvasWidth containerWidth newX)
               (placeAxis canvasHeight containerHeight newY))
      (initialPosition st)
  else st.

Definition handleTouchEnd (st : PreviewState) : PreviewState :=
  if isDragging st then
    mkPreviewState (zoomLevel st) false (dragStart st) (canvasPosition st) (canvasPosition st)
  else st.

(** The effect that runs when the processed canvas changes. *)
Definition resetView (st : PreviewState) : PreviewState :=
  mkPreviewState 1 (isDragging st) (dragStart st) (mkPoint 0 0) (mkPoint 0 0).

(** The initial values of the state hooks. *)
Definition initialPreviewState : PreviewState :=
  mkPreviewState 1 false (mkPoint 0 0) (mkPoint 0 0) (mkPoint 0 0).

(** The element sizes that a handler reads: of the displayed canvas, of the
    processed canvas and of the container. *)
Record Layout : Type := mkLayout {
  canvasWidth : Q; canvasHeight : Q;
  processedWidth : Q; processedHeight : Q;
  containerWidth : Q; containerHeight : Q
}.

(** What can happen to the component, with what the handler reads. *)
Inductive event : Type :=
  | MouseDown (clientX clientY : Q)
  | MouseMove (clientX clientY : Q) (l : Layout)
  | MouseUp
  | MouseLeave
  | TouchStart (clientX clientY : Q)
  | TouchMove (clientX clientY : Q) (l : Layout)
  | TouchEnd
  | ZoomChange (newZoomLevel : Q) (l : Layout)
  | CanvasChange.

Definition handle (st : PreviewState) (ev : event) : PreviewState :=
  match ev with
  | MouseDown x y => handleMouseDown x y st
  | MouseMove x y l =>
      handleMouseMove x y (canvasWidth l) (canvasHeight l)
        (containerWidth l) (containerHeight l) st
  | MouseUp => handleMouseUp st
  | MouseLeave => handleMouseLeave st
  | TouchStart x y => handleTouchStart x y st
  | TouchMove x y l =>
      handleTouchMove x y (canvasWidth l) (canvasHeight l)
        (containerWidth l) (containerHeight l) st
  | TouchEnd => handleTouchEnd st
  | ZoomChange z l =>
      handleZoomChange z (processedWidth l) (processedHeight l)
        (containerWidth l) (containerHeight l) st
  | CanvasChange => resetView st
  end.

(** A mouse move to [m] under the layout [l]. *)
Definition moveTo (l : Layout) (m : Q * Q) : event := MouseMove m.1 m.2 l.

(** The canvas placed at [pos] on an axis leaves no gap: it covers the
    container when it is the larger, and lies centred inside it otherwise. *)
Definition in_view (canvasSize containerSize pos : Q) : Prop :=
  if Qlt_le_dec containerSize canvasSize
  then (containerSize - canvasSize <= pos /\ pos <= 0)%Q
  else (0 <= pos /\ pos + canvasSize <= containerSize /\
        pos + canvasSize + pos == containerSize)%Q.

Definition placed (canvasWidth canvasHeight containerWidth containerHeight : Q)
    (p : Point) : Prop :=
  in_view canvasWidth containerWidth (point_x p) /\
  in_view canvasHeight containerHeight (point_y p).

(** Outside a drag, the position a drag starts from is the one shown. *)
Definition settled (st : PreviewState) : Prop :=
  isDragging st = false -> initialPosition st = canvasPosition st.

(** ** ImagePreview: the grid *)

(** One [beginPath(); moveTo(from); lineTo(to); stroke()]. *)
Record stroke : Type := mkStroke { from_x : Q; from_y : Q; to_x : Q; to_y : Q }.

(** [for (let x = start; x <= limit; x += pixelSize)]: the values of [x] at
    which the body runs. *)
Fixpoint gridSteps (fuel : nat) (x limit pixelSize : Q) : list Q :=
  match fuel with
  | O => []
  | S fuel' =>
      if Qle_bool x limit then x :: gridSteps fuel' (x + pixelSize) limit pixelSize
      else []
  end.

(** Enough steps for the loop to end by its own test when [pixelSize] is
    positive ([gridSteps_stops]). *)
Definition gridFuel (limit pixelSize : Q) : nat :=
  S (S (Z.to_nat (Qfloor (limit / pixelSize)))).

(** The strokes of [drawGrid(ctx, width, height, blockSize)], in the order
    drawn; [zoomLevel] is the state that the function reads. *)
Definition drawGrid (zoomLevel width height blockSize : Q) : list stroke :=
  let pixelSize := (blockSize * zoomLevel)%Q in
  if Qlt_le_dec pixelSize 4 then []
  else
    ((fun x => mkStroke x 0 x height) <$> gridSteps (gridFuel width pixelSize) 0 width pixelSize)
    ++ ((fun y => mkStroke 0 y width y) <$>
          gridSteps (gridFuel height pixelSize) 0 height pixelSize).

(** [drawCanvas] with the processed canvas, the displayed canvas and its
    context present: the display size and the grid strokes drawn over the
    scaled image. *)
Definition drawCanvas (zoomLevel sourceWidth sourceHeight currentBlockSize : Q)
  : Q * Q * list stroke :=
  let displayWidth := (sourceWidth * zoomLevel)%Q in
  let displayHeight := (sourceHeight * zoomLevel)%Q in
  (displayWidth, displayHeight,
   if Qle_bool 2 zoomLevel
   then drawGrid zoomLevel displayWidth displayHeight currentBlockSize
   else []).

(** The [k]-th multiple of the grid step. *)
Definition nthStep (k : nat) (pixelSize : Q) : Q := (inject_Z (Z.of_nat k) * pixelSize)%Q.

(** * Properties *)

(** ** Worked examples *)

Example dither_2x1 :
  floydSteinbergDither (mkImageData [128; 128; 128; 255; 128; 128; 128; 255] 2 1)
    [Color 0 0 0; Color 255 255 255]
  = Some (mkImageData [255; 255; 255; 255; 0; 0; 0; 255] 2 1).
Proof. vm_compute. reflexivity. Qed.

Example flatten_ex :
  data (flattenAlpha (mkImageData [10; 20; 30; 128; 1; 2; 3; 255; 0; 0; 0; 0] 3 1))
  = [132; 137; 142; 255; 1; 2; 3; 255; 255; 255; 255; 255].
Proof. vm_compute. reflexivity. Qed.

Example quantize_ex :
  quantizeToNearestColor (mkImageData [10; 20; 30; 128; 200; 250; 3; 7] 2 1)
    [Color 0 0 0; Color 255 255 255]
  = Some (mkImageData [0; 0; 0; 128; 255; 255; 255; 7] 2 1).
Proof. vm_compute. reflexivity. Qed.

Lemma range_all_spec n z f v :
  range_all n z f = true -> z <= v < z + Z.of_nat n -> f v = true.
Proof.
  revert z. induction n as [|n IH]; intros z Hall Hv; [lia|].
  simpl in Hall. apply andb_prop in Hall as [Hz Hrest].
  destruct (decide (v = z)) as [->|Hne]; [done|].
  apply (IH (z + 1)); [done | lia].
Qed.

(** ** adjustImageSize *)

(** C8: for a block size of at least 1 the adjusted width and height are
    [max(floor(original / blockSize) * blockSize, blockSize)]; both are
    multiples of the block size and at least the block size, so never zero. *)
Theorem adjustImageSize_block_aligned (originalWidth originalHeight blockSize : Z) :
  1 <= blockSize ->
  let s := adjustImageSize originalWidth originalHeight blockSize in
  size_width s = Z.max (originalWidth / blockSize * blockSize) blockSize /\
  size_height s = Z.max (originalHeight / blockSize * blockSize) blockSize /\
  (blockSize | size_width s) /\ (blockSize | size_height s) /\
  blockSize <= size_width s /\ blockSize <= size_height s /\
  0 < size_width s /\ 0 < size_height s.
Proof.
  intros Hbs s. subst s. unfold adjustImageSize. cbn [size_width size_height].
  assert (Hdiv : forall a, (blockSize | Z.max (a / blockSize * blockSize) blockSize)).
  { intros a. destruct (Z.max_spec (a / blockSize * blockSize) blockSize) as [[_ ->]|[_ ->]].
    - apply Z.divide_refl.
    - apply Z.divide_factor_r. }
  repeat split; auto; lia.
Qed.

Lemma adjustImageSize_block_aligned_witness :
  1 <= 4 /\
  let s := adjustImageSize 10 3 4 in
  size_width s = Z.max (10 / 4 * 4) 4 /\
  size_height s = Z.max (3 / 4 * 4) 4 /\
  (4 | size_width s) /\ (4 | size_height s) /\
  4 <= size_width s /\ 4 <= size_height s /\
  0 < size_width s /\ 0 < size_height s.
Proof. split; [lia | apply (adjustImageSize_block_aligned 10 3 4); lia]. Defined.

(** ** pixelateImage *)

(** C9: with a block size of at most 1 the call returns at once and the canvas,
    pixel contents included, is what it was. *)
Theorem pixelateImage_small_block_noop
    (getContext : Canvas -> bool) (drawImage : Canvas -> Z -> Z -> list Z)
    (canvas : Canvas) (blockSize : Z) :
  blockSize <= 1 ->
  pixelateImage getContext drawImage canvas blockSize = (canvas, false) /\
  canvas_pixels (fst (pixelateImage getContext drawImage canvas blockSize))
  = canvas_pixels canvas.
Proof.
  intros Hbs. unfold pixelateImage.
  destruct (Z.leb_spec blockSize 1) as [_|Hgt]; [done | lia].
Qed.

Lemma pixelateImage_small_block_noop_witness :
  1 <= 1 /\
  pixelateImage (fun _ => true) (fun _ _ _ => []) (mkCanvas 2 1 [1; 2; 3; 4; 5; 6; 7; 8]) 1
  = (mkCanvas 2 1 [1; 2; 3; 4; 5; 6; 7; 8], false).
Proof.
  split; [lia|].
  apply (pixelateImage_small_block_noop (fun _ => true) (fun _ _ _ => [])
           (mkCanvas 2 1 [1; 2; 3; 4; 5; 6; 7; 8]) 1); lia.
Defined.

(** ** findNearestPaletteColor *)

Lemma nearest_foldl (r g b : Z) (n0 : option color) (l : palette) :
  l <> [] ->
  exists i c,
    foldl (nearest_step r g b) (None, n0) l = (Some (distance r g b c), Some c) /\
    first_nearest r g b l i c.
Proof.
  induction l as [|x l IH] using rev_ind; [done|]. intros _.
  rewrite foldl_app. cbn [foldl].
  destruct (decide (l = [])) as [->|Hne].
  - exists 0%nat, x. cbn. split; [done|].
    split; [done|]. split.
    + intros j c' [_ <-]%list_lookup_singleton_Some. lia.
    + intros j c' _ _. lia.
  - destruct (IH Hne) as (i & c & -> & Hi & Hmin & Hfirst).
    unfold nearest_step. cbn [JS.lt_inf].
    destruct (Z.ltb_spec (distance r g b x) (distance r g b c)) as [Hlt|Hge].
    + exists (length l), x. split; [done|]. split; [|split].
      * apply lookup_snoc_Some. by right.
      * intros j c' [[_ Hj]|[_ <-]]%lookup_snoc_Some; [|lia].
        specialize (Hmin _ _ Hj). lia.
      * intros j c' [[_ Hj]|[-> _]]%lookup_snoc_Some Heq; [|lia].
        specialize (Hmin _ _ Hj). lia.
    + exists i, c. split; [done|]. split; [|split].
      * by apply lookup_app_l_Some.
      * intros j c' [[_ Hj]|[_ <-]]%lookup_snoc_Some; [by eapply Hmin | lia].
      * intros j c' [[_ Hj]|[-> _]]%lookup_snoc_Some Heq; [by eapply Hfirst|].
        apply lookup_lt_Some in Hi. lia.
Qed.

Lemma findNearestPaletteColor_is_Some r g b pal :
  pal <> [] ->
  exists i c, findNearestPaletteColor r g b pal = Some c /\ first_nearest r g b pal i c.
Proof.
  intros Hne. destruct (nearest_foldl r g b (head pal) pal Hne) as (i & c & Hf & Hc).
  exists i, c. unfold findNearestPaletteColor. by rewrite Hf.
Qed.

Lemma findNearestPaletteColor_empty r g b : findNearestPaletteColor r g b [] = None.
Proof. reflexivity. Qed.

Lemma read_nearest_in oR oG oB pal :
  pal <> [] -> exists c, read_nearest oR oG oB pal = Some c /\ c ∈ pal.
Proof.
  intros Hne. unfold read_nearest.
  destruct oR as [r|], oG as [g|], oB as [b|];
    try (destruct pal as [|c0 pal]; [done|]; exists c0; split; [done | apply list_elem_of_here]).
  destruct (findNearestPaletteColor_is_Some r g b pal Hne) as (i & c & Hc & Hi & _).
  exists c. split; [done|]. by eapply list_elem_of_lookup_2.
Qed.

(** C4: for a non-empty palette the search returns an entry of least squared
    distance, and among the entries of least distance the one of lowest index;
    for the palette [[0,0,0],[10,10,10]] and the query (5,5,5), both at
    distance 75, it returns [0,0,0]. *)
Theorem findNearestPaletteColor_least_first (r g b : Z) (pal : palette) :
  pal <> [] ->
  (exists i c,
      findNearestPaletteColor r g b pal = Some c /\
      pal !! i = Some c /\
      (forall j c', pal !! j = Some c' ->
         (r - cR c) ^ 2 + (g - cG c) ^ 2 + (b - cB c) ^ 2
         <= (r - cR c') ^ 2 + (g - cG c') ^ 2 + (b - cB c') ^ 2) /\
      (forall j c', pal !! j = Some c' ->
         distance r g b c' = distance r g b c -> (i <= j)%nat)) /\
  distance 5 5 5 (Color 0 0 0) = 75 /\
  distance 5 5 5 (Color 10 10 10) = 75 /\
  findNearestPaletteColor 5 5 5 [Color 0 0 0; Color 10 10 10] = Some (Color 0 0 0).
Proof.
  intros Hne. split; [|by vm_compute].
  destruct (findNearestPaletteColor_is_Some r g b pal Hne) as (i & c & Hf & Hi & Hmin & Hfirst).
  exists i, c. repeat split; [done | done | | done].
  intros j c' Hj. apply (Hmin j c' Hj).
Qed.

Lemma findNearestPaletteColor_least_first_witness :
  [Color 0 0 0; Color 10 10 10] <> [] /\
  findNearestPaletteColor 5 5 5 [Color 0 0 0; Color 10 10 10] = Some (Color 0 0 0).
Proof.
  split; [done|].
  apply (findNearestPaletteColor_least_first 5 5 5 [Color 0 0 0; Color 10 10 10]). done.
Defined.

(** ** Loops over the pixels *)

Lemma div4_bounds (j : nat) : (4 * (j / 4) <= j < 4 * (j / 4) + 4)%nat.
Proof.
  pose proof (Nat.div_mod_eq j 4). pose proof (Nat.mod_upper_bound j 4). lia.
Qed.

Lemma div4_unique (j k : nat) : (4 * k <= j < 4 * k + 4)%nat -> (j / 4 = k)%nat.
Proof. intros Hj. pose proof (div4_bounds j). lia. Qed.

Lemma for_each_pure {A : Type} (body : A -> nat -> option A) (pure : A -> nat -> A) l a :
  (forall a i, body a i = Some (pure a i)) ->
  for_each body a l = Some (foldl pure a l).
Proof.
  intros Hb. revert a. induction l as [|i l IH]; intros a; [done|].
  cbn. rewrite Hb. cbn. apply IH.
Qed.

Lemma for_each_seq_inv {A : Type} (P : nat -> A -> Prop) (body : A -> nat -> option A) n s a :
  P s a ->
  (forall i a, (s <= i < s + n)%nat -> P i a -> exists a', body a i = Some a' /\ P (S i) a') ->
  exists a', for_each body a (seq s n) = Some a' /\ P (s + n)%nat a'.
Proof.
  revert s a. induction n as [|n IH]; intros s a Hs Hstep.
  - exists a. rewrite Nat.add_0_r. done.
  - cbn [seq for_each]. destruct (Hstep s a ltac:(lia) Hs) as (a1 & -> & H1). cbn.
    destruct (IH (S s) a1 H1) as (a' & Hrun & Ha').
    { intros i a2 Hi. apply Hstep. lia. }
    exists a'. split; [done|]. by replace (s + S n)%nat with (S s + n)%nat by lia.
Qed.

Section PixelLoop.
  Variable body : list Z -> nat -> list Z.
  Hypothesis body_length : forall d i, length (body d i) = length d.
  Hypothesis body_frame :
    forall d i j, (j < i \/ i + 4 <= j)%nat -> body d i !! j = d !! j.
  Hypothesis body_local :
    forall d d' i j, (i <= j < i + 4)%nat -> length d = length d' ->
      (forall j', (i <= j' < i + 4)%nat -> d !! j' = d' !! j') ->
      body d i !! j = body d' i !! j.

Lemma pixel_loop_lookup d n :
  let out := foldl body d ((fun k => 4 * k)%nat <$> seq 0 n) in
  length out = length d /\
  forall j, out !! j =
            if decide (j < 4 * n)%nat then body d (4 * (j / 4))%nat !! j else d !! j.
Proof.
  induction n as [|n [IHlen IH]]; cbn zeta.
  - split; [done|]. intros j. by rewrite decide_False by lia.
  - rewrite seq_S, fmap_app, foldl_app. cbn [fmap list_fmap foldl Nat.add].
    set (out := foldl body d ((fun k => 4 * k)%nat <$> seq 0 n)) in *.
    split; [by rewrite body_length|]. intros j.
    destruct (decide (j < 4 * n)%nat) as [Hlt|Hge].
    + rewrite body_frame by lia. rewrite IH.
      rewrite decide_True by lia. by rewrite decide_True by lia.
    + destruct (decide (j < 4 * S n)%nat) as [Hin|Hout].
      * rewrite (div4_unique j n) by lia.
        apply body_local; [lia | done |].
        intros j' Hj'. rewrite IH. by rewrite decide_False by lia.
      * rewrite body_frame by lia. rewrite IH. by rewrite decide_False by lia.
Qed.

Lemma pixel_offsets_loop d j :
  let out := foldl body d (pixel_offsets (length d)) in
  length out = length d /\
  ((j < length d)%nat -> out !! j = body d (4 * (j / 4))%nat !! j).
Proof.
  unfold pixel_offsets.
  destruct (pixel_loop_lookup d ((length d + 3) / 4)%nat) as [Hlen Hlook].
  split; [done|]. intros Hj. rewrite Hlook.
  pose proof (div4_bounds (length d + 3)). by rewrite decide_True by lia.
Qed.
End PixelLoop.

Lemma pixel_offsets_spec len i :
  i ∈ pixel_offsets len <-> (exists k, i = 4 * k /\ i < len)%nat.
Proof.
  unfold pixel_offsets. rewrite list_elem_of_fmap.
  pose proof (div4_bounds (len + 3)). split.
  - intros (k & -> & Hk). apply elem_of_seq in Hk. exists k. lia.
  - intros (k & -> & Hk). exists k. split; [done|]. apply elem_of_seq. lia.
Qed.

Lemma foldl_fixed {A B : Type} (f : A -> B -> A) (a : A) (l : list B) :
  (forall i, i ∈ l -> f a i = a) -> foldl f a l = a.
Proof.
  induction l as [|i l IH]; intros Hfix; [done|].
  cbn. rewrite (Hfix i) by apply list_elem_of_here.
  apply IH. intros i' Hi'. apply Hfix. by apply list_elem_of_further.
Qed.

Lemma pixel_at_Some d k r g b a :
  pixel_at d k = Some (r, g, b, a) <->
  d !! (4 * k)%nat = Some r /\ d !! (4 * k + 1)%nat = Some g /\
  d !! (4 * k + 2)%nat = Some b /\ d !! (4 * k + 3)%nat = Some a.
Proof.
  unfold pixel_at. split.
  - intros H. destruct (d !! (4 * k)%nat); [|done].
    destruct (d !! (4 * k + 1)%nat); [|done].
    destruct (d !! (4 * k + 2)%nat); [|done].
    destruct (d !! (4 * k + 3)%nat); [|done].
    cbn in H. by simplify_eq.
  - by intros (-> & -> & -> & ->).
Qed.

Lemma pixel_at_ext d d' k :
  (forall c, (c < 4)%nat -> d !! (4 * k + c)%nat = d' !! (4 * k + c)%nat) ->
  pixel_at d k = pixel_at d' k.
Proof.
  intros Hext. unfold pixel_at.
  rewrite <- (Hext 1%nat), <- (Hext 2%nat), <- (Hext 3%nat) by lia.
  specialize (Hext 0%nat ltac:(lia)). rewrite Nat.add_0_r in Hext. by rewrite Hext.
Qed.

(** ** The float arithmetic on bytes is exact *)

(** *** The stores of the flattener *)

Lemma store_all : range_all 256 0 (fun v => store v =? v) = true.
Proof. vm_compute. reflexivity. Qed.

Lemma store_byte v : byte_ok v -> store v = v.
Proof.
  intros Hv. apply Z.eqb_eq.
  apply (range_all_spec 256 0 (fun v => store v =? v) v store_all).
  unfold byte_ok in Hv. lia.
Qed.

Lemma blend_all :
  range_all 256 0 (fun c => range_all 255 0 (fun a => blend_ok c a)) = true.
Proof. vm_compute. reflexivity. Qed.

(** The rounded value is the integer nearest to the exact blend
    [(c * a + 255 * (255 - a)) / 255]; the exact value is never half-way. *)
Lemma flatten_formula_nearest c a :
  2 * Z.abs (255 * flatten_formula c a - (c * a + 255 * (255 - a))) < 255.
Proof.
  unfold flatten_formula.
  assert (Heq : (inject_Z c * (a # 255) + inject_Z 255 * (1 - (a # 255)) + (1 # 2)
                 == (2 * (c * a + 255 * (255 - a)) + 255) # 510)%Q).
  { unfold Qeq, Qplus, Qmult, Qminus, Qopp, inject_Z. cbn. lia. }
  rewrite (Qfloor_comp _ _ Heq). unfold Qfloor.
  pose proof (Z.div_mod (2 * (c * a + 255 * (255 - a)) + 255) 510 ltac:(lia)) as Hdm.
  pose proof (Z.mod_pos_bound (2 * (c * a + 255 * (255 - a)) + 255) 510 ltac:(lia)) as Hmod.
  change (Z.pos 510) with 510.
  set (q := (2 * (c * a + 255 * (255 - a)) + 255) / 510) in *.
  set (m := (2 * (c * a + 255 * (255 - a)) + 255) mod 510) in *.
  assert (m <> 0).
  { intros Hm. assert (Hodd : 2 * (c * a + 255 * (255 - a) - 255 * q) + 255 = 0) by lia.
    lia. }
  lia.
Qed.

(** On bytes the binary64 evaluation of the source and the exact formula
    agree. *)
Lemma blend_formula c a :
  byte_ok c -> 0 <= a < 255 -> blend c a = flatten_formula c a.
Proof.
  intros Hc Ha. unfold byte_ok in Hc.
  pose proof (range_all_spec _ _ _ c blend_all ltac:(lia)) as Hrow. cbv beta in Hrow.
  pose proof (range_all_spec _ _ _ a Hrow ltac:(lia)) as Hcell. cbv beta in Hcell.
  unfold blend_ok in Hcell. apply Z.ltb_lt in Hcell.
  pose proof (flatten_formula_nearest c a). lia.
Qed.

(** *** The stores of the dither *)

(** [fs_exact] is a byte, the integer nearest to the clamped value, the even
    one of the two when the value is half-way. *)
Lemma fs_exact_nearest v e w :
  let n := Z.max 0 (Z.min (255 * 16) (16 * v + e * w)) in
  0 <= fs_exact v e w <= 255 /\
  Z.abs (16 * fs_exact v e w - n) <= 8 /\
  (Z.abs (16 * fs_exact v e w - n) = 8 -> Z.even (fs_exact v e w) = true).
Proof.
  intros n. unfold fs_exact. fold n.
  assert (Hn : 0 <= n <= 4080) by (subst n; lia).
  pose proof (Z.div_mod n 16 ltac:(lia)) as Hdm.
  pose proof (Z.mod_pos_bound n 16 ltac:(lia)) as Hmod.
  set (f := n / 16) in *. set (r := n mod 16) in *.
  destruct (Z.ltb_spec r 8); [repeat split; try lia|].
  destruct (Z.ltb_spec 8 r); [repeat split; try lia|].
  destruct (Z.even f) eqn:Hev; [repeat split; try lia; done|].
  assert (Hodd : Z.even (f + 1) = true).
  { rewrite Z.even_add, Hev. done. }
  repeat split; try lia; done.
Qed.

Lemma fs_all :
  range_all 256 0 (fun v => range_all 511 (-255) (fun e =>
    fs_ok v e 7 && fs_ok v e 3 && fs_ok v e 5 && fs_ok v e 1)) = true.
Proof. vm_compute. reflexivity. Qed.

Lemma nearest_sixteenth_unique n r r' :
  nearest_sixteenth n r = true ->
  Z.abs (16 * r' - n) <= 8 -> (Z.abs (16 * r' - n) = 8 -> Z.even r' = true) ->
  r = r'.
Proof.
  unfold nearest_sixteenth. cbv zeta. intros Hr Hle Hev.
  apply orb_prop in Hr as [Hlt%Z.ltb_lt | [Heq%Z.eqb_eq Hevr]%andb_prop]; [lia|].
  destruct (decide (r = r')) as [|Hne]; [done|exfalso].
  assert (Hd : r' = r + 1 \/ r' = r - 1) by lia.
  specialize (Hev ltac:(lia)).
  destruct Hd as [-> | ->].
  - rewrite Z.even_add, Hevr in Hev. done.
  - rewrite Z.even_sub, Hevr in Hev. done.
Qed.

(** On bytes and errors between -255 and 255 the binary64 evaluation of the
    source and the exact rounding agree. *)
Lemma fs_store_exact v e w :
  byte_ok v -> -255 <= e <= 255 -> w = 7 \/ w = 3 \/ w = 5 \/ w = 1 ->
  fs_store v e w = fs_exact v e w.
Proof.
  intros Hv He Hw. unfold byte_ok in Hv.
  pose proof (range_all_spec _ _ _ v fs_all ltac:(lia)) as Hrow. cbv beta in Hrow.
  pose proof (range_all_spec _ _ _ e Hrow ltac:(lia)) as Hcell. cbv beta in Hcell.
  apply andb_prop in Hcell as [Hcell H1]. apply andb_prop in Hcell as [Hcell H5].
  apply andb_prop in Hcell as [H7 H3].
  unfold fs_ok in H1, H3, H5, H7.
  destruct (fs_exact_nearest v e w) as (_ & Hle & Hev).
  apply (nearest_sixteenth_unique (Z.max 0 (Z.min (255 * 16) (16 * v + e * w))));
    [|exact Hle|exact Hev].
  destruct Hw as [-> | [-> | [-> | ->]]]; [exact H7 | exact H3 | exact H5 | exact H1].
Qed.

(** ** flattenAlpha *)

Lemma lookup_total_agree (d d' : list Z) i : d !! i = d' !! i -> d !!! i = d' !!! i.
Proof. intros H. by rewrite !list_lookup_total_alt, H. Qed.

Lemma insert_agree (d d' : list Z) i v j :
  length d = length d' -> d !! j = d' !! j -> <[i:=v]> d !! j = <[i:=v]> d' !! j.
Proof. intros Hlen Hj. rewrite !list_lookup_insert, Hlen, Hj. done. Qed.

Lemma flatten_pixel_length d i : length (flatten_pixel d i) = length d.
Proof.
  unfold flatten_pixel. destruct (d !! (i + 3)%nat) as [a|]; [|done].
  destruct (a <? 255); [|done]. by rewrite !length_insert.
Qed.

Lemma flatten_pixel_frame d i j :
  (j < i \/ i + 4 <= j)%nat -> flatten_pixel d i !! j = d !! j.
Proof.
  intros Hj. unfold flatten_pixel. destruct (d !! (i + 3)%nat) as [a|]; [|done].
  destruct (a <? 255); [|done]. by rewrite !list_lookup_insert_ne by lia.
Qed.

Lemma flatten_pixel_local d d' i j :
  (i <= j < i + 4)%nat -> length d = length d' ->
  (forall j', (i <= j' < i + 4)%nat -> d !! j' = d' !! j') ->
  flatten_pixel d i !! j = flatten_pixel d' i !! j.
Proof.
  intros Hj Hlen Hagree. unfold flatten_pixel.
  rewrite <- (Hagree (i + 3)%nat) by lia.
  destruct (d !! (i + 3)%nat) as [a|]; [|by apply Hagree].
  destruct (a <? 255); [|by apply Hagree].
  rewrite <- !(lookup_total_agree d d') by (apply Hagree; lia).
  repeat (apply insert_agree; [by rewrite ?length_insert|]).
  by apply Hagree.
Qed.

Lemma flatten_pixel_at d k r g b a :
  pixel_at d k = Some (r, g, b, a) ->
  pixel_at (flatten_pixel d (4 * k)) k =
  Some (if a <? 255 then (blend r a, blend g a, blend b a, 255) else (r, g, b, a)).
Proof.
  intros Hpx. pose proof Hpx as (Hr & Hg & Hb & Ha)%pixel_at_Some.
  unfold flatten_pixel. rewrite Ha. destruct (a <? 255); [|done].
  apply lookup_lt_Some in Ha.
  rewrite (list_lookup_total_correct _ _ _ Hr), (list_lookup_total_correct _ _ _ Hg),
    (list_lookup_total_correct _ _ _ Hb).
  apply pixel_at_Some.
  rewrite !list_lookup_insert, !length_insert.
  repeat split; repeat (case_decide; try lia); done.
Qed.

Lemma flattenAlpha_lookup img j :
  (j < length (data img))%nat ->
  data (flattenAlpha img) !! j = flatten_pixel (data img) (4 * (j / 4)) !! j.
Proof.
  intros Hj. unfold flattenAlpha. cbn [data].
  by apply (pixel_offsets_loop flatten_pixel flatten_pixel_length flatten_pixel_frame
              flatten_pixel_local).
Qed.

Lemma flattenAlpha_length img : length (data (flattenAlpha img)) = length (data img).
Proof.
  unfold flattenAlpha. cbn [data].
  by apply (pixel_offsets_loop flatten_pixel flatten_pixel_length flatten_pixel_frame
              flatten_pixel_local (data img) 0).
Qed.

Lemma flattenAlpha_pixel_at img k r g b a :
  pixel_at (data img) k = Some (r, g, b, a) ->
  pixel_at (data (flattenAlpha img)) k =
  Some (if a <? 255 then (blend r a, blend g a, blend b a, 255) else (r, g, b, a)).
Proof.
  intros Hpx. rewrite <- (flatten_pixel_at _ _ _ _ _ _ Hpx).
  apply pixel_at_ext. intros c Hc.
  apply pixel_at_Some in Hpx as (_ & _ & _ & Ha%lookup_lt_Some).
  rewrite flattenAlpha_lookup by lia.
  by rewrite (div4_unique (4 * k + c) k) by lia.
Qed.

(** C6: a pixel of alpha [a < 255] gets the channels
    [round(c * (a/255) + 255 * (1 - a/255))] for R, G and B, the white
    background being (255,255,255), and alpha 255; a pixel of alpha 255 keeps
    its four bytes.  The sizes of the image are unchanged. *)
Theorem flattenAlpha_composites_on_white (img : ImageData) (k : nat) (r g b a : Z) :
  bytes_ok img ->
  pixel_at (data img) k = Some (r, g, b, a) ->
  (a < 255 ->
   pixel_at (data (flattenAlpha img)) k
   = Some (flatten_formula r a, flatten_formula g a, flatten_formula b a, 255)) /\
  (a = 255 -> pixel_at (data (flattenAlpha img)) k = Some (r, g, b, a)) /\
  length (data (flattenAlpha img)) = length (data img) /\
  width (flattenAlpha img) = width img /\ height (flattenAlpha img) = height img.
Proof.
  intros Hbytes Hpx. pose proof Hpx as (Hr & Hg & Hb & Ha)%pixel_at_Some.
  unfold bytes_ok in Hbytes. rewrite Forall_lookup in Hbytes.
  pose proof (Hbytes _ _ Hr) as Hr'. pose proof (Hbytes _ _ Hg) as Hg'.
  pose proof (Hbytes _ _ Hb) as Hb'. pose proof (Hbytes _ _ Ha) as Ha'.
  unfold byte_ok in Ha'.
  rewrite (flattenAlpha_pixel_at _ _ _ _ _ _ Hpx).
  split; [|split; [|split; [apply flattenAlpha_length | done]]].
  - intros Hlt. destruct (Z.ltb_spec a 255); [|lia].
    by rewrite !blend_formula by (done || lia).
  - intros ->. done.
Qed.

Lemma flattenAlpha_composites_on_white_witness :
  bytes_ok (mkImageData [10; 20; 30; 128; 1; 2; 3; 255] 2 1) /\
  pixel_at [10; 20; 30; 128; 1; 2; 3; 255] 0 = Some (10, 20, 30, 128) /\
  pixel_at (data (flattenAlpha (mkImageData [10; 20; 30; 128; 1; 2; 3; 255] 2 1))) 0
  = Some (132, 137, 142, 255).
Proof.
  assert (Hb : bytes_ok (mkImageData [10; 20; 30; 128; 1; 2; 3; 255] 2 1)).
  { unfold bytes_ok, byte_ok. cbn. repeat constructor; lia. }
  split; [exact Hb|]. split; [reflexivity|].
  apply (flattenAlpha_composites_on_white
           (mkImageData [10; 20; 30; 128; 1; 2; 3; 255] 2 1) 0 10 20 30 128 Hb eq_refl).
  lia.
Defined.

Lemma flatten_pixel_opaque d i :
  (forall a, d !! (i + 3)%nat = Some a -> 255 <= a) -> flatten_pixel d i = d.
Proof.
  intros Hop. unfold flatten_pixel. destruct (d !! (i + 3)%nat) as [a|]; [|done].
  specialize (Hop a eq_refl). destruct (Z.ltb_spec a 255); [lia | done].
Qed.

Lemma flattenAlpha_opaque img :
  (forall k a, data img !! (4 * k + 3)%nat = Some a -> 255 <= a) -> flattenAlpha img = img.
Proof.
  intros Hop. destruct img as [d w h]. unfold flattenAlpha. cbn [data width height] in *.
  f_equal. apply foldl_fixed. intros i (k & -> & _)%pixel_offsets_spec.
  apply flatten_pixel_opaque. apply Hop.
Qed.

Lemma flattenAlpha_alpha_opaque img k a :
  data (flattenAlpha img) !! (4 * k + 3)%nat = Some a -> 255 <= a.
Proof.
  intros Hout. pose proof (lookup_lt_Some _ _ _ Hout) as Hlt.
  rewrite flattenAlpha_length in Hlt.
  rewrite flattenAlpha_lookup in Hout by done.
  rewrite (div4_unique (4 * k + 3) k) in Hout by lia.
  unfold flatten_pixel in Hout.
  destruct (data img !! (4 * k + 3)%nat) as [a0|] eqn:Ha0.
  - destruct (Z.ltb_spec a0 255).
    + rewrite list_lookup_insert_eq in Hout by (by rewrite !length_insert).
      injection Hout as <-. by vm_compute.
    + rewrite Ha0 in Hout. injection Hout as <-. done.
  - by rewrite Ha0 in Hout.
Qed.

(** C7: on a buffer whose pixels all have alpha 255 the flattener changes no
    byte, and flattening twice gives the bytes of flattening once. *)
Theorem flattenAlpha_idempotent (img : ImageData) :
  ((forall k a, data img !! (4 * k + 3)%nat = Some a -> a = 255) ->
   flattenAlpha img = img) /\
  flattenAlpha (flattenAlpha img) = flattenAlpha img.
Proof.
  split.
  - intros Hop. apply flattenAlpha_opaque. intros k a Ha. rewrite (Hop k a Ha). lia.
  - apply flattenAlpha_opaque. apply flattenAlpha_alpha_opaque.
Qed.

Lemma flattenAlpha_idempotent_witness :
  flattenAlpha (mkImageData [1; 2; 3; 255; 9; 8; 7; 255] 2 1)
  = mkImageData [1; 2; 3; 255; 9; 8; 7; 255] 2 1 /\
  flattenAlpha (flattenAlpha (mkImageData [10; 20; 30; 128] 1 1))
  = flattenAlpha (mkImageData [10; 20; 30; 128] 1 1).
Proof.
  split.
  - apply (proj1 (flattenAlpha_idempotent (mkImageData [1; 2; 3; 255; 9; 8; 7; 255] 2 1))).
    intros k a Ha. destruct k as [|[|k]]; [by injection Ha as <-..|].
    apply lookup_lt_Some in Ha. cbn [data length] in Ha. lia.
  - apply (proj2 (flattenAlpha_idempotent (mkImageData [10; 20; 30; 128] 1 1))).
Defined.

(** ** quantizeToNearestColor *)

Lemma quantize_pixel_body pal d i :
  pal <> [] -> quantize_pixel pal d i = Some (quantize_body pal d i).
Proof.
  intros Hne. unfold quantize_body, quantize_pixel.
  destruct (read_nearest_in (d !! i) (d !! (i + 1)%nat) (d !! (i + 2)%nat) pal Hne)
    as (c & -> & _).
  done.
Qed.

Lemma quantize_body_length pal d i : length (quantize_body pal d i) = length d.
Proof.
  unfold quantize_body, quantize_pixel.
  destruct (read_nearest _ _ _ pal); [|done]. cbn. by rewrite !length_insert.
Qed.

Lemma quantize_body_frame pal d i j :
  (j < i \/ i + 4 <= j)%nat -> quantize_body pal d i !! j = d !! j.
Proof.
  intros Hj. unfold quantize_body, quantize_pixel.
  destruct (read_nearest _ _ _ pal); [|done]. cbn.
  by rewrite !list_lookup_insert_ne by lia.
Qed.

Lemma quantize_body_local pal d d' i j :
  (i <= j < i + 4)%nat -> length d = length d' ->
  (forall j', (i <= j' < i + 4)%nat -> d !! j' = d' !! j') ->
  quantize_body pal d i !! j = quantize_body pal d' i !! j.
Proof.
  intros Hj Hlen Hagree. unfold quantize_body, quantize_pixel.
  rewrite <- (Hagree i), <- (Hagree (i + 1)%nat), <- (Hagree (i + 2)%nat) by lia.
  destruct (read_nearest _ _ _ pal); [|by apply Hagree]. cbn.
  repeat (apply insert_agree; [by rewrite ?length_insert|]).
  by apply Hagree.
Qed.

Lemma quantize_body_at pal d k r g b a c :
  pixel_at d k = Some (r, g, b, a) ->
  findNearestPaletteColor r g b pal = Some c ->
  pixel_at (quantize_body pal d (4 * k)) k = Some (store (cR c), store (cG c), store (cB c), a).
Proof.
  intros (Hr & Hg & Hb & Ha)%pixel_at_Some Hc.
  unfold quantize_body, quantize_pixel.
  rewrite Hr, Hg, Hb. cbn [read_nearest]. rewrite Hc. cbn.
  apply lookup_lt_Some in Hr, Hg, Hb.
  apply pixel_at_Some.
  rewrite !list_lookup_insert, !length_insert.
  repeat split; repeat (case_decide; try lia); done.
Qed.

Lemma quantize_run img pal :
  pal <> [] ->
  quantizeToNearestColor img pal
  = Some (mkImageData
            (foldl (quantize_body pal) (data img) (pixel_offsets (length (data img))))
            (width img) (height img)).
Proof.
  intros Hne. unfold quantizeToNearestColor.
  rewrite (for_each_pure _ (quantize_body pal)); [done|].
  intros d i. by apply quantize_pixel_body.
Qed.

Lemma quantize_pixel_at img pal out k r g b a c :
  quantizeToNearestColor img pal = Some out ->
  pal <> [] ->
  pixel_at (data img) k = Some (r, g, b, a) ->
  findNearestPaletteColor r g b pal = Some c ->
  pixel_at (data out) k = Some (store (cR c), store (cG c), store (cB c), a).
Proof.
  intros Hq Hne Hpx Hc. rewrite quantize_run in Hq by done. injection Hq as <-.
  cbn [data]. rewrite <- (quantize_body_at pal _ _ _ _ _ _ _ Hpx Hc).
  apply pixel_at_ext. intros ch Hch.
  apply pixel_at_Some in Hpx as (_ & _ & _ & Ha%lookup_lt_Some).
  destruct (pixel_offsets_loop (quantize_body pal) (quantize_body_length pal)
              (quantize_body_frame pal) (quantize_body_local pal) (data img)
              (4 * k + ch)%nat) as [_ Hlook].
  cbv zeta in Hlook. rewrite Hlook by lia.
  by rewrite (div4_unique (4 * k + ch) k) by lia.
Qed.

Lemma quantize_length img pal out :
  quantizeToNearestColor img pal = Some out -> pal <> [] ->
  length (data out) = length (data img) /\ width out = width img /\ height out = height img.
Proof.
  intros Hq Hne. rewrite quantize_run in Hq by done. injection Hq as <-. cbn.
  split; [|done].
  by apply (pixel_offsets_loop (quantize_body pal) (quantize_body_length pal)
              (quantize_body_frame pal) (quantize_body_local pal) (data img) 0).
Qed.

Lemma palette_ok_lookup pal i c : palette_ok pal -> pal !! i = Some c -> color_ok c.
Proof. unfold palette_ok. rewrite Forall_lookup. eauto. Qed.

(** C5: for a non-empty palette of byte triples the quantizer returns the
    image in which every pixel has the RGB of the palette entry nearest to its
    old RGB (of least squared distance, the first such entry of the palette),
    so an entry of the palette, and the alpha byte it had. *)
Theorem quantizeToNearestColor_palette_rgb (img : ImageData) (pal : palette) :
  pal <> [] -> palette_ok pal ->
  exists out,
    quantizeToNearestColor img pal = Some out /\
    length (data out) = length (data img) /\
    width out = width img /\ height out = height img /\
    forall k r g b a,
      pixel_at (data img) k = Some (r, g, b, a) ->
      exists i c,
        findNearestPaletteColor r g b pal = Some c /\
        pal !! i = Some c /\ c ∈ pal /\
        (forall j c', pal !! j = Some c' ->
           (r - cR c) ^ 2 + (g - cG c) ^ 2 + (b - cB c) ^ 2
           <= (r - cR c') ^ 2 + (g - cG c') ^ 2 + (b - cB c') ^ 2) /\
        (forall j c', pal !! j = Some c' ->
           (r - cR c') ^ 2 + (g - cG c') ^ 2 + (b - cB c') ^ 2
           = (r - cR c) ^ 2 + (g - cG c) ^ 2 + (b - cB c) ^ 2 -> (i <= j)%nat) /\
        pixel_at (data out) k = Some (cR c, cG c, cB c, a).
Proof.
  intros Hne Hok.
  pose proof (quantize_run img pal Hne) as Hrun.
  eexists. split; [exact Hrun|].
  destruct (quantize_length _ _ _ Hrun Hne) as (Hlen & Hw & Hh).
  split; [exact Hlen|]. split; [exact Hw|]. split; [exact Hh|].
  intros k r g b a Hpx.
  destruct (findNearestPaletteColor_is_Some r g b pal Hne)
    as (i & c & Hc & Hi & Hmin & Hfirst).
  exists i, c. split; [done|]. split; [done|]. split; [by eapply list_elem_of_lookup_2|].
  split; [exact Hmin|]. split; [exact Hfirst|].
  rewrite (quantize_pixel_at _ _ _ _ _ _ _ _ _ Hrun Hne Hpx Hc).
  destruct (palette_ok_lookup _ _ _ Hok Hi) as (HR & HG & HB).
  by rewrite !store_byte.
Qed.

Lemma two_color_palette_ok : palette_ok [Color 0 0 0; Color 255 255 255].
Proof. unfold palette_ok, color_ok, byte_ok. repeat constructor; cbn; lia. Qed.

Lemma quantizeToNearestColor_palette_rgb_witness :
  exists out,
    quantizeToNearestColor (mkImageData [10; 20; 30; 128; 200; 250; 3; 7] 2 1)
      [Color 0 0 0; Color 255 255 255] = Some out /\
    length (data out) = 8%nat /\
    exists i c,
      findNearestPaletteColor 200 250 3 [Color 0 0 0; Color 255 255 255] = Some c /\
      [Color 0 0 0; Color 255 255 255] !! i = Some c /\
      (200 - cR c) ^ 2 + (250 - cG c) ^ 2 + (3 - cB c) ^ 2
      <= (200 - 0) ^ 2 + (250 - 0) ^ 2 + (3 - 0) ^ 2 /\
      pixel_at (data out) 1 = Some (cR c, cG c, cB c, 7).
Proof.
  destruct (quantizeToNearestColor_palette_rgb
              (mkImageData [10; 20; 30; 128; 200; 250; 3; 7] 2 1)
              [Color 0 0 0; Color 255 255 255] ltac:(done) two_color_palette_ok)
    as (out & Hq & Hlen & _ & _ & Hpx).
  exists out. split; [exact Hq|]. split; [exact Hlen|].
  destruct (Hpx 1%nat 200 250 3 7 eq_refl) as (i & c & Hc & Hi & _ & Hmin & _ & Hout).
  exists i, c. split; [exact Hc|]. split; [exact Hi|]. split; [|exact Hout].
  exact (Hmin 0%nat (Color 0 0 0) eq_refl).
Defined.

Lemma distance_zero r g b c : distance r g b c <= 0 -> cR c = r /\ cG c = g /\ cB c = b.
Proof.
  unfold distance. rewrite !Z.pow_2_r. intros Hd.
  pose proof (Z.square_nonneg (r - cR c)). pose proof (Z.square_nonneg (g - cG c)).
  pose proof (Z.square_nonneg (b - cB c)).
  assert (Hr : (r - cR c) * (r - cR c) = 0) by lia.
  assert (Hg : (g - cG c) * (g - cG c) = 0) by lia.
  assert (Hb : (b - cB c) * (b - cB c) = 0) by lia.
  apply Z.mul_eq_0 in Hr, Hg, Hb. lia.
Qed.

(** A palette entry is its own nearest entry, up to an entry of equal RGB. *)
Lemma findNearestPaletteColor_fixed pal c c' :
  c ∈ pal -> findNearestPaletteColor (cR c) (cG c) (cB c) pal = Some c' -> c' = c.
Proof.
  intros [i Hi]%list_elem_of_lookup Hc'.
  assert (Hne : pal <> []) by (intros ->; done).
  destruct (findNearestPaletteColor_is_Some (cR c) (cG c) (cB c) pal Hne)
    as (n & c2 & Hc2 & _ & Hmin & _).
  rewrite Hc' in Hc2. injection Hc2 as <-.
  specialize (Hmin i c Hi).
  assert (Hz : distance (cR c) (cG c) (cB c) c = 0).
  { unfold distance. rewrite !Z.sub_diag. done. }
  destruct (distance_zero (cR c) (cG c) (cB c) c') as (HR & HG & HB); [lia|].
  destruct c, c'. cbn in *. by subst.
Qed.

Lemma pixel_at_is_Some (d : list Z) k :
  (4 * k + 3 < length d)%nat -> exists r g b a, pixel_at d k = Some (r, g, b, a).
Proof.
  intros Hk.
  destruct (lookup_lt_is_Some_2 d (4 * k)%nat ltac:(lia)) as [r Hr].
  destruct (lookup_lt_is_Some_2 d (4 * k + 1)%nat ltac:(lia)) as [g Hg].
  destruct (lookup_lt_is_Some_2 d (4 * k + 2)%nat ltac:(lia)) as [b Hb].
  destruct (lookup_lt_is_Some_2 d (4 * k + 3)%nat ltac:(lia)) as [a Ha].
  exists r, g, b, a. by apply pixel_at_Some.
Qed.

(** Two arrays of one length, a multiple of 4, with the same pixels are equal. *)
Lemma pixels_eq (d d' : list Z) (n : nat) :
  length d = (n * 4)%nat -> length d' = (n * 4)%nat ->
  (forall k, (k < n)%nat -> pixel_at d k = pixel_at d' k) -> d = d'.
Proof.
  intros Hd Hd' Hpx. apply list_eq. intros j.
  destruct (decide (j < n * 4)%nat) as [Hj|Hj].
  - pose proof (div4_bounds j) as Hb.
    assert (Hk : (j / 4 < n)%nat) by lia.
    destruct (pixel_at_is_Some d (j / 4)) as (r & g & b & a & Hp); [lia|].
    pose proof Hp as Hp'. rewrite (Hpx _ Hk) in Hp'.
    apply pixel_at_Some in Hp as (H0 & H1 & H2 & H3).
    apply pixel_at_Some in Hp' as (H0' & H1' & H2' & H3').
    assert (Hcase : (j = 4 * (j / 4) \/ j = 4 * (j / 4) + 1 \/ j = 4 * (j / 4) + 2
                     \/ j = 4 * (j / 4) + 3)%nat) by lia.
    destruct Hcase as [Hc|[Hc|[Hc|Hc]]]; rewrite Hc; congruence.
  - rewrite !(lookup_ge_None_2 _ j) by lia. done.
Qed.

(** C10: on a well-formed image and a non-empty palette of byte triples,
    quantizing the quantized image changes no byte of it: every pixel already
    holds a palette entry, whose nearest entry has the same RGB. *)
Theorem quantizeToNearestColor_idempotent (img out : ImageData) (pal : palette) :
  pal <> [] -> palette_ok pal -> wf_image img ->
  quantizeToNearestColor img pal = Some out ->
  quantizeToNearestColor out pal = Some out.
Proof.
  intros Hne Hok Hwf Hq.
  destruct (quantize_length _ _ _ Hq Hne) as (Hlen & Hw & Hh).
  rewrite (quantize_run out pal Hne).
  pose proof (quantize_run out pal Hne) as Hq2.
  destruct (quantize_length _ _ _ Hq2 Hne) as (Hlen2 & _ & _).
  set (out2 := foldl (quantize_body pal) (data out) (pixel_offsets (length (data out)))) in *.
  cbn [data] in Hlen2.
  destruct out as [d w h]. cbn [data width height] in *. f_equal. f_equal.
  unfold wf_image in Hwf.
  apply (pixels_eq _ _ (width img * height img)); [lia | lia |].
  intros k Hk.
  destruct (pixel_at_is_Some (data img) k) as (r & g & b & a & Hpx); [lia|].
  destruct (findNearestPaletteColor_is_Some r g b pal Hne) as (i & c & Hc & Hi & _).
  pose proof (quantize_pixel_at _ _ _ _ _ _ _ _ _ Hq Hne Hpx Hc) as Hout.
  cbn [data] in Hout.
  destruct (palette_ok_lookup _ _ _ Hok Hi) as (HR & HG & HB).
  rewrite !store_byte in Hout by done.
  destruct (findNearestPaletteColor_is_Some (cR c) (cG c) (cB c) pal Hne)
    as (i2 & c2 & Hc2 & _).
  pose proof (quantize_pixel_at _ _ _ _ _ _ _ _ _ Hq2 Hne Hout Hc2) as Hout2.
  cbn [data] in Hout2.
  rewrite (findNearestPaletteColor_fixed pal c c2) in Hout2
    by (done || by eapply list_elem_of_lookup_2).
  rewrite !store_byte in Hout2 by done.
  by rewrite Hout, Hout2.
Qed.

Lemma quantizeToNearestColor_idempotent_witness :
  quantizeToNearestColor (mkImageData [0; 0; 0; 128; 255; 255; 255; 7] 2 1)
    [Color 0 0 0; Color 255 255 255]
  = Some (mkImageData [0; 0; 0; 128; 255; 255; 255; 7] 2 1).
Proof.
  apply (quantizeToNearestColor_idempotent
           (mkImageData [10; 20; 30; 128; 200; 250; 3; 7] 2 1)
           (mkImageData [0; 0; 0; 128; 255; 255; 255; 7] 2 1)
           [Color 0 0 0; Color 255 255 255]).
  - done.
  - exact two_color_palette_ok.
  - reflexivity.
  - vm_compute. reflexivity.
Defined.

(** ** floydSteinbergDither *)

Lemma diffuse_length d n eR eG eB w : length (diffuse d n eR eG eB w) = length d.
Proof. unfold diffuse. by rewrite !length_insert. Qed.

Lemma diffuse_frame d n eR eG eB w j :
  (j < n \/ n + 3 <= j)%nat -> diffuse d n eR eG eB w !! j = d !! j.
Proof. intros Hj. unfold diffuse. by rewrite !list_lookup_insert_ne by lia. Qed.

Lemma diffuse_lookup_total d n eR eG eB w j :
  diffuse d n eR eG eB w !!! j =
  if decide (n <= j < n + 3 /\ j < length d)%nat
  then fs_store (d !!! j) (pick (j - n) eR eG eB) w
  else d !!! j.
Proof.
  unfold diffuse. cbv zeta.
  rewrite !list_lookup_total_insert, !length_insert.
  destruct (decide (j = n)) as [->|H0].
  { rewrite Nat.sub_diag. repeat case_decide; try lia; done. }
  destruct (decide (j = n + 1)%nat) as [->|H1].
  { replace (n + 1 - n)%nat with 1%nat by lia. repeat case_decide; try lia; done. }
  destruct (decide (j = n + 2)%nat) as [->|H2].
  { replace (n + 2 - n)%nat with 2%nat by lia. repeat case_decide; try lia; done. }
  repeat case_decide; try lia; done.
Qed.

Lemma dither_update_length c w h y d x : length (dither_update c w h y d x) = length d.
Proof.
  unfold dither_update. cbv zeta.
  repeat case_decide; by rewrite ?diffuse_length, ?length_insert.
Qed.

(** The bytes before the pixel being visited are not written. *)
Lemma dither_update_before c w h y d x j :
  (x < w)%nat -> (j < (y * w + x) * 4)%nat -> dither_update c w h y d x !! j = d !! j.
Proof.
  intros Hx Hj. unfold dither_update. cbv zeta.
  repeat case_decide; rewrite ?diffuse_frame by lia;
    by rewrite !list_lookup_insert_ne by lia.
Qed.

(** No alpha byte is written. *)
Lemma dither_update_alpha c w h y d x k :
  dither_update c w h y d x !! (4 * k + 3)%nat = d !! (4 * k + 3)%nat.
Proof.
  unfold dither_update. cbv zeta.
  repeat case_decide; rewrite ?diffuse_frame by lia;
    by rewrite !list_lookup_insert_ne by lia.
Qed.

(** The pixel being visited holds the palette entry after the diffusion. *)
Lemma dither_update_current c w h y d x ch :
  (x < w)%nat -> (ch < 3)%nat -> ((y * w + x) * 4 + 3 < length d)%nat ->
  dither_update c w h y d x !! (4 * (y * w + x) + ch)%nat = Some (store (channel c ch)).
Proof.
  intros Hx Hch Hlen. unfold dither_update. cbv zeta.
  repeat case_decide; rewrite ?diffuse_frame by lia;
    rewrite !list_lookup_insert, !length_insert;
    destruct ch as [|[|[|ch]]]; try lia; cbn [channel pick];
    repeat case_decide; try lia; done.
Qed.

Lemma dither_pixel_Some pal w h y d x :
  pal <> [] ->
  exists c, c ∈ pal /\ dither_pixel pal w h y d x = Some (dither_update c w h y d x).
Proof.
  intros Hne. unfold dither_pixel. cbv zeta.
  destruct (read_nearest_in (d !! ((y * w + x) * 4)%nat) (d !! ((y * w + x) * 4 + 1)%nat)
              (d !! ((y * w + x) * 4 + 2)%nat) pal Hne) as (c & -> & Hc).
  by exists c.
Qed.

(** On a pixel inside the array the search is the one on its three bytes. *)
Lemma dither_pixel_in_range pal w h y d x :
  ((y * w + x) * 4 + 2 < length d)%nat ->
  dither_pixel pal w h y d x =
  c ← findNearestPaletteColor (d !!! ((y * w + x) * 4)%nat)
        (d !!! ((y * w + x) * 4 + 1)%nat) (d !!! ((y * w + x) * 4 + 2)%nat) pal;
  Some (dither_update c w h y d x).
Proof.
  intros Hin. unfold dither_pixel. cbv zeta.
  rewrite !list_lookup_lookup_total_lt by lia. done.
Qed.

(** A property of the working copy indexed by the number of pixels visited, kept
    by every turn of the inner loop, holds of the result for all the pixels. *)
Lemma dither_loop_inv (I : nat -> list Z -> Prop) pal w h d0 :
  I 0%nat d0 ->
  (forall x y d, (x < w)%nat -> (y < h)%nat -> I (y * w + x)%nat d ->
     exists d', dither_pixel pal w h y d x = Some d' /\ I (S (y * w + x)) d') ->
  exists d',
    for_each (fun d y => for_each (dither_pixel pal w h y) d (seq 0 w)) d0 (seq 0 h)
    = Some d' /\
    I (h * w)%nat d'.
Proof.
  intros H0 Hstep.
  destruct (for_each_seq_inv (fun y d => I (y * w)%nat d)
              (fun d y => for_each (dither_pixel pal w h y) d (seq 0 w)) h 0 d0 H0)
    as (d' & Hrun & Hd'); [|by exists d'].
  intros y d Hy Hrow.
  destruct (for_each_seq_inv (fun x d => I (y * w + x)%nat d)
              (dither_pixel pal w h y) w 0 d) as (d1 & Hrun1 & Hd1).
  - by rewrite Nat.add_0_r.
  - intros x d2 Hx Hd2. rewrite Nat.add_succ_r. apply Hstep; [lia | lia | done].
  - exists d1. split; [done|]. by replace (S y * w)%nat with (y * w + (0 + w))%nat by lia.
Qed.

Lemma dither_alpha_step pal w h d0 x y d :
  pal <> [] -> alpha_kept d0 (y * w + x) d ->
  exists d', dither_pixel pal w h y d x = Some d' /\ alpha_kept d0 (S (y * w + x)) d'.
Proof.
  intros Hne Hk. destruct (dither_pixel_Some pal w h y d x Hne) as (c & _ & ->).
  eexists. split; [done|]. intros k. rewrite dither_update_alpha. apply Hk.
Qed.

Lemma dither_palette_step pal w h x y d :
  pal <> [] -> palette_ok pal -> (x < w)%nat -> (y < h)%nat ->
  visited_in_palette pal (w * h * 4) (y * w + x) d ->
  exists d', dither_pixel pal w h y d x = Some d' /\
             visited_in_palette pal (w * h * 4) (S (y * w + x)) d'.
Proof.
  intros Hne Hok Hx Hy [Hlen Hvis].
  destruct (dither_pixel_Some pal w h y d x Hne) as (c & Hc & ->).
  eexists. split; [done|]. split; [by rewrite dither_update_length|].
  assert (Hin : ((y * w + x) * 4 + 3 < length d)%nat) by nia.
  intros q Hq. destruct (decide (q = y * w + x)%nat) as [->|Hne'].
  - exists c. split; [done|].
    unfold palette_ok in Hok. rewrite Forall_forall in Hok.
    destruct (Hok c Hc) as (HR & HG & HB).
    pose proof (dither_update_current c w h y d x 0 Hx ltac:(lia) Hin) as H0.
    pose proof (dither_update_current c w h y d x 1 Hx ltac:(lia) Hin) as H1.
    pose proof (dither_update_current c w h y d x 2 Hx ltac:(lia) Hin) as H2.
    rewrite Nat.add_0_r in H0. cbn [channel pick] in *.
    rewrite store_byte in H0, H1, H2 by done. done.
  - destruct (Hvis q ltac:(lia)) as (c' & Hc' & H0 & H1 & H2).
    exists c'. split; [done|].
    rewrite !dither_update_before by lia. done.
Qed.

Lemma floydSteinbergDither_inv (I : nat -> list Z -> Prop) img pal :
  I 0%nat (data img) ->
  (forall x y d, (x < width img)%nat -> (y < height img)%nat ->
     I (y * width img + x)%nat d ->
     exists d', dither_pixel pal (width img) (height img) y d x = Some d' /\
                I (S (y * width img + x)) d') ->
  exists out,
    floydSteinbergDither img pal = Some out /\
    I (height img * width img)%nat (data out) /\
    width out = width img /\ height out = height img.
Proof.
  intros H0 Hstep.
  destruct (dither_loop_inv I pal (width img) (height img) (data img) H0 Hstep)
    as (d' & Hrun & Hd').
  exists (mkImageData d' (width img) (height img)).
  split; [|done]. unfold floydSteinbergDither, dither_row. by rewrite Hrun.
Qed.

(** C1 (amended): the dither never writes an alpha byte: every pixel of the
    result has the alpha of the input pixel, so the result is fully opaque
    when the input is (as it is after [flattenAlpha]). *)
Theorem floydSteinbergDither_keeps_alpha (img : ImageData) (pal : palette) :
  pal <> [] ->
  exists out,
    floydSteinbergDither img pal = Some out /\
    width out = width img /\ height out = height img /\
    (forall k, data out !! (4 * k + 3)%nat = data img !! (4 * k + 3)%nat) /\
    ((forall k a, data img !! (4 * k + 3)%nat = Some a -> a = 255) ->
     forall k a, data out !! (4 * k + 3)%nat = Some a -> a = 255).
Proof.
  intros Hne.
  destruct (floydSteinbergDither_inv (alpha_kept (data img)) img pal)
    as (out & Hrun & Hk & Hw & Hh).
  - by intros k.
  - intros x y d _ _. by apply dither_alpha_step.
  - exists out. split; [done|]. split; [done|]. split; [done|]. split; [exact Hk|].
    intros Hop k a Ha. rewrite Hk in Ha. by eapply Hop.
Qed.

(** C1 as stated fails: a transparent pixel stays transparent. *)
Lemma floydSteinbergDither_alpha_not_forced :
  ~ (forall img pal out k a,
       wf_image img -> bytes_ok img -> pal <> [] -> palette_ok pal ->
       floydSteinbergDither img pal = Some out ->
       data out !! (4 * k + 3)%nat = Some a -> a = 255).
Proof.
  intros Hclaim.
  assert (Hb : bytes_ok (mkImageData [10; 20; 30; 0] 1 1)).
  { unfold bytes_ok, byte_ok. cbn. repeat constructor; lia. }
  assert (Hp : palette_ok [Color 0 0 0]).
  { unfold palette_ok, color_ok, byte_ok. repeat constructor; cbn; lia. }
  specialize (Hclaim (mkImageData [10; 20; 30; 0] 1 1) [Color 0 0 0]
                (mkImageData [0; 0; 0; 0] 1 1) 0%nat 0 eq_refl Hb ltac:(done) Hp
                ltac:(vm_compute; reflexivity) eq_refl).
  discriminate Hclaim.
Qed.

(** C3: on a well-formed image and a non-empty palette of byte triples the
    dither returns an image of the same size in which every pixel has the RGB
    of a palette entry: a turn of the loop writes the entry at its pixel and
    otherwise only at pixels later in raster order ([dither_update_before]). *)
Theorem floydSteinbergDither_palette_rgb (img : ImageData) (pal : palette) :
  pal <> [] -> palette_ok pal -> wf_image img ->
  exists out,
    floydSteinbergDither img pal = Some out /\
    wf_image out /\ width out = width img /\ height out = height img /\
    forall k, (k < width img * height img)%nat ->
      exists c a, c ∈ pal /\ pixel_at (data out) k = Some (cR c, cG c, cB c, a).
Proof.
  intros Hne Hok Hwf. unfold wf_image in Hwf.
  destruct (floydSteinbergDither_inv
              (visited_in_palette pal (width img * height img * 4)) img pal)
    as (out & Hrun & [Hlen Hvis] & Hw & Hh).
  - split; [done|]. intros q Hq. lia.
  - intros x y d Hx Hy. by apply dither_palette_step.
  - exists out. split; [done|]. split; [|split; [done|split; [done|]]].
    + unfold wf_image. by rewrite Hw, Hh.
    + intros k Hk. destruct (Hvis k ltac:(lia)) as (c & Hc & H0 & H1 & H2).
      destruct (lookup_lt_is_Some_2 (data out) (4 * k + 3)%nat ltac:(lia)) as [a Ha].
      exists c, a. split; [done|]. by apply pixel_at_Some.
Qed.

Lemma floydSteinbergDither_keeps_alpha_witness :
  [Color 0 0 0] <> [] /\
  exists out,
    floydSteinbergDither (mkImageData [10; 20; 30; 0] 1 1) [Color 0 0 0] = Some out /\
    data out !! 3%nat = Some 0.
Proof.
  split; [done|].
  destruct (floydSteinbergDither_keeps_alpha (mkImageData [10; 20; 30; 0] 1 1)
              [Color 0 0 0] ltac:(done)) as (out & Hrun & _ & _ & Hk & _).
  exists out. split; [exact Hrun | exact (Hk 0%nat)].
Defined.

Lemma floydSteinbergDither_palette_rgb_witness :
  exists out,
    floydSteinbergDither (mkImageData [128; 128; 128; 255; 128; 128; 128; 255] 2 1)
      [Color 0 0 0; Color 255 255 255] = Some out /\
    wf_image out.
Proof.
  destruct (floydSteinbergDither_palette_rgb
              (mkImageData [128; 128; 128; 255; 128; 128; 128; 255] 2 1)
              [Color 0 0 0; Color 255 255 255] ltac:(done) two_color_palette_ok eq_refl)
    as (out & Hrun & Hwf & _).
  exists out. split; [exact Hrun | exact Hwf].
Defined.

(** *** One turn of the loop *)

Lemma diffuse_total_ne d n eR eG eB w j :
  (j < n \/ n + 3 <= j)%nat -> diffuse d n eR eG eB w !!! j = d !!! j.
Proof. intros Hj. rewrite !list_lookup_total_alt. by rewrite diffuse_frame. Qed.

Lemma diffuse_total_eq d n eR eG eB w j :
  (n <= j < n + 3)%nat -> (j < length d)%nat ->
  diffuse d n eR eG eB w !!! j = fs_store (d !!! j) (pick (j - n) eR eG eB) w.
Proof.
  intros Hn Hj. rewrite diffuse_lookup_total. by rewrite decide_True by lia.
Qed.

Ltac pick_index ch :=
  repeat match goal with
  | |- context [pick ?e _ _ _] =>
      progress replace e with ch by lia
  end.

Ltac through_diffuse :=
  repeat first
    [ rewrite diffuse_total_ne by lia
    | rewrite diffuse_total_eq by (rewrite ?diffuse_length, ?length_insert; lia) ].

Ltac through_insert :=
  repeat (rewrite list_lookup_total_insert;
          first [ rewrite decide_True by (rewrite ?length_insert; lia)
                | rewrite decide_False by lia ]).

(** The bytes of pixel [q] after the turn of the loop at [(x, y)], by the
    position of [q] in raster order relative to [p = y * w + x]. *)
Lemma dither_update_lookup_total c w h y d x q ch :
  (x < w)%nat -> (ch < 3)%nat -> (q * 4 + ch < length d)%nat ->
  let p := (y * w + x)%nat in
  let j := (q * 4 + ch)%nat in
  let err := d !!! (p * 4 + ch)%nat - channel c ch in
  dither_update c w h y d x !!! j =
  if decide (q = p) then store (channel c ch)
  else if decide (x + 1 < w /\ q = p + 1)%nat then fs_store (d !!! j) err 7
  else if decide (y + 1 < h /\ 0 < x /\ q + 1 = p + w)%nat then fs_store (d !!! j) err 3
  else if decide (y + 1 < h /\ q = p + w)%nat then fs_store (d !!! j) err 5
  else if decide (y + 1 < h /\ x + 1 < w /\ q = p + w + 1)%nat then fs_store (d !!! j) err 1
  else d !!! j.
Proof.
  intros Hx Hch Hj p j err. subst p j err.
  unfold dither_update, channel. cbv zeta.
  destruct (decide (x + 1 < w)%nat); destruct (decide (y + 1 < h)%nat);
    destruct (decide (0 < x)%nat).
  all: repeat case_decide; try lia.
  all: through_diffuse.
  all: pick_index ch.
  all: through_insert.
  all: destruct ch as [|[|[|ch]]]; try lia; cbn [pick]; rewrite ?Nat.add_0_r.
  all: through_insert.
  all: done.
Qed.

Lemma raster_inj w a y1 b y2 :
  (a < w)%nat -> (b < w)%nat -> (y1 * w + a = y2 * w + b)%nat -> a = b /\ y1 = y2.
Proof.
  intros Ha Hb Heq.
  destruct (lt_eq_lt_dec y1 y2) as [[Hlt | ->] | Hgt].
  - assert (((y1 + 1) * w <= y2 * w)%nat) by (apply Nat.mul_le_mono_r; lia). lia.
  - lia.
  - assert (((y2 + 1) * w <= y1 * w)%nat) by (apply Nat.mul_le_mono_r; lia). lia.
Qed.

Lemma raster_in_grid w h x y : (x < w)%nat -> (y < h)%nat -> (y * w + x < w * h)%nat.
Proof.
  intros Hx Hy.
  assert (((y + 1) * w <= h * w)%nat) by (apply Nat.mul_le_mono_r; lia). lia.
Qed.

Lemma bytes_lookup_total (d : list Z) j :
  Forall byte_ok d -> (j < length d)%nat -> byte_ok (d !!! j).
Proof.
  intros Hd Hj. destruct (lookup_lt_is_Some_2 d j Hj) as [v Hv].
  rewrite (list_lookup_total_correct _ _ _ Hv).
  rewrite Forall_lookup in Hd. by eapply Hd.
Qed.

Lemma channel_byte c ch : color_ok c -> byte_ok (channel c ch).
Proof.
  intros (HR & HG & HB). unfold channel. by destruct ch as [|[|ch]].
Qed.

(** The turn of the loop at pixel [p] on bytes: pixel [q], channel [ch]. *)
Lemma dither_update_bytes c w h y d x q ch :
  color_ok c -> Forall byte_ok d ->
  (x < w)%nat -> (ch < 3)%nat -> (q * 4 + ch < length d)%nat ->
  ((y * w + x) * 4 + ch < length d)%nat ->
  let p := (y * w + x)%nat in
  let j := (q * 4 + ch)%nat in
  let err := d !!! (p * 4 + ch)%nat - channel c ch in
  -255 <= err <= 255 /\
  byte_ok (dither_update c w h y d x !!! j) /\
  dither_update c w h y d x !!! j =
  if decide (q = p) then channel c ch
  else if decide (x + 1 < w /\ q = p + 1)%nat then fs_exact (d !!! j) err 7
  else if decide (y + 1 < h /\ 0 < x /\ q + 1 = p + w)%nat then fs_exact (d !!! j) err 3
  else if decide (y + 1 < h /\ q = p + w)%nat then fs_exact (d !!! j) err 5
  else if decide (y + 1 < h /\ x + 1 < w /\ q = p + w + 1)%nat then fs_exact (d !!! j) err 1
  else d !!! j.
Proof.
  intros Hc Hd Hx Hch Hj Hp p j err.
  pose proof (bytes_lookup_total d j Hd Hj) as Hbj.
  pose proof (bytes_lookup_total d (p * 4 + ch)%nat Hd Hp) as Hbp.
  pose proof (channel_byte c ch Hc) as Hbc.
  assert (Herr : -255 <= err <= 255) by (unfold byte_ok in *; subst err; lia).
  split; [done|].
  assert (Heq : dither_update c w h y d x !!! j =
    if decide (q = p) then channel c ch
    else if decide (x + 1 < w /\ q = p + 1)%nat then fs_exact (d !!! j) err 7
    else if decide (y + 1 < h /\ 0 < x /\ q + 1 = p + w)%nat then fs_exact (d !!! j) err 3
    else if decide (y + 1 < h /\ q = p + w)%nat then fs_exact (d !!! j) err 5
    else if decide (y + 1 < h /\ x + 1 < w /\ q = p + w + 1)%nat then fs_exact (d !!! j) err 1
    else d !!! j).
  { subst j. rewrite (dither_update_lookup_total c w h y d x q ch Hx Hch Hj). cbv zeta.
    fold p. fold err. rewrite (store_byte _ Hbc).
    rewrite !(fs_store_exact (d !!! (q * 4 + ch)%nat) err) by (done || lia). done. }
  split; [|exact Heq]. rewrite Heq.
  repeat case_decide; try done;
    by destruct (fs_exact_nearest (d !!! j) err 7), (fs_exact_nearest (d !!! j) err 3),
         (fs_exact_nearest (d !!! j) err 5), (fs_exact_nearest (d !!! j) err 1).
Qed.

Lemma dither_update_Forall_bytes c w h y d x :
  color_ok c -> Forall byte_ok d -> (x < w)%nat -> (y < h)%nat ->
  length d = (w * h * 4)%nat ->
  Forall byte_ok (dither_update c w h y d x).
Proof.
  intros Hc Hd Hx Hy Hlen. apply Forall_lookup. intros i v Hv.
  pose proof (lookup_lt_Some _ _ _ Hv) as Hi. rewrite dither_update_length in Hi.
  pose proof (raster_in_grid w h x y Hx Hy) as Hp.
  pose proof (div4_bounds i) as Hq.
  destruct (decide (i = 4 * (i / 4) + 3)%nat) as [Ha|Hna].
  - rewrite Ha, dither_update_alpha in Hv. rewrite Forall_lookup in Hd. by eapply Hd.
  - rewrite <- (list_lookup_total_correct _ _ _ Hv).
    replace i with ((i / 4) * 4 + (i - 4 * (i / 4)))%nat by lia.
    apply (dither_update_bytes c w h y d x (i / 4) (i - 4 * (i / 4))); try done; lia.
Qed.

(** One turn of the loop, at [(x, y)], on a well-formed array of bytes.
    With [c] the palette entry nearest to the pixel and, per channel,
    [err = old - new], the pixel itself gets [c], each in-grid neighbour of
    the kernel gets its value plus its share of [err], clamped and rounded by
    the byte store, and every other byte of the grid keeps its value. *)
Lemma dither_pixel_turn (pal : palette) (w h x y : nat) (d : list Z) :
  pal <> [] -> palette_ok pal -> (x < w)%nat -> (y < h)%nat ->
  length d = (w * h * 4)%nat -> Forall byte_ok d ->
  let p := (y * w + x)%nat in
  exists c d',
    findNearestPaletteColor (d !!! (p * 4)%nat) (d !!! (p * 4 + 1)%nat)
      (d !!! (p * 4 + 2)%nat) pal = Some c /\
    dither_pixel pal w h y d x = Some d' /\
    length d' = length d /\ Forall byte_ok d' /\
    forall x' y', (x' < w)%nat -> (y' < h)%nat ->
      let q := (y' * w + x')%nat in
      d' !!! (q * 4 + 3)%nat = d !!! (q * 4 + 3)%nat /\
      forall ch, (ch < 3)%nat ->
        let err := d !!! (p * 4 + ch)%nat - channel c ch in
        -255 <= err <= 255 /\
        d' !!! (q * 4 + ch)%nat =
          if decide (x' = x /\ y' = y) then channel c ch
          else match fs_weight x y x' y' with
               | Some wgt => fs_exact (d !!! (q * 4 + ch)%nat) err wgt
               | None => d !!! (q * 4 + ch)%nat
               end.
Proof.
  intros Hne Hok Hx Hy Hlen Hd p.
  pose proof (raster_in_grid w h x y Hx Hy) as Hp.
  destruct (findNearestPaletteColor_is_Some (d !!! (p * 4)%nat) (d !!! (p * 4 + 1)%nat)
              (d !!! (p * 4 + 2)%nat) pal Hne) as (i & c & Hc & Hi & _).
  assert (Hrun : dither_pixel pal w h y d x = Some (dither_update c w h y d x)).
  { rewrite dither_pixel_in_range by (fold p; lia). fold p. by rewrite Hc. }
  pose proof (palette_ok_lookup _ _ _ Hok Hi) as Hcol.
  exists c, (dither_update c w h y d x).
  split; [exact Hc|]. split; [exact Hrun|].
  split; [apply dither_update_length|].
  split; [by apply dither_update_Forall_bytes|].
  intros x' y' Hx' Hy' q.
  pose proof (raster_in_grid w h x' y' Hx' Hy') as Hq.
  split.
  - rewrite !list_lookup_total_alt.
    replace (q * 4 + 3)%nat with (4 * q + 3)%nat by lia.
    by rewrite dither_update_alpha.
  - intros ch Hch err.
    destruct (dither_update_bytes c w h y d x q ch Hcol Hd Hx Hch ltac:(lia) ltac:(lia))
      as (Herr & _ & Heq).
    split; [exact Herr|]. rewrite Heq. fold p. fold err.
    subst p q.
    assert (E0 : (y' * w + x' = y * w + x)%nat <-> (x' = x /\ y' = y)).
    { split; [by apply raster_inj | by intros [-> ->]]. }
    assert (E7 : (x + 1 < w /\ y' * w + x' = y * w + x + 1)%nat
                 <-> (x' = x + 1 /\ y' = y)%nat).
    { split.
      - intros [H1 H2]. apply (raster_inj w x' y' (x + 1) y); lia.
      - intros [-> ->]. lia. }
    assert (E3 : (y + 1 < h /\ 0 < x /\ y' * w + x' + 1 = y * w + x + w)%nat
                 <-> (x' + 1 = x /\ y' = y + 1)%nat).
    { split.
      - intros (H1 & H2 & H3).
        destruct (raster_inj w x' y' (x - 1) (y + 1)); lia.
      - intros [H1 ->]. lia. }
    assert (E5 : (y + 1 < h /\ y' * w + x' = y * w + x + w)%nat
                 <-> (x' = x /\ y' = y + 1)%nat).
    { split.
      - intros [H1 H2]. apply (raster_inj w x' y' x (y + 1)); lia.
      - intros [-> ->]. lia. }
    assert (E1 : (y + 1 < h /\ x + 1 < w /\ y' * w + x' = y * w + x + w + 1)%nat
                 <-> (x' = x + 1 /\ y' = y + 1)%nat).
    { split.
      - intros (H1 & H2 & H3). apply (raster_inj w x' y' (x + 1) (y + 1)); lia.
      - intros [-> ->]. lia. }
    rewrite (decide_ext _ _ _ _ E0), (decide_ext _ _ _ _ E7), (decide_ext _ _ _ _ E3),
      (decide_ext _ _ _ _ E5), (decide_ext _ _ _ _ E1).
    unfold fs_weight. repeat case_decide; done.
Qed.

(** The dither as a sequence of turns: when every turn of the loop keeps
    [Inv] and relates the array before it to the array after it by [T], the
    dither returns, and the arrays it goes through, numbered in raster order
    from the input [arr 0] to the result [arr (width * height)], are related
    by [T] turn after turn. *)
Lemma dither_trace (Inv : list Z -> Prop) (T : nat -> nat -> list Z -> list Z -> Prop)
    img pal :
  Inv (data img) ->
  (forall x y d, (x < width img)%nat -> (y < height img)%nat -> Inv d ->
     exists d', dither_pixel pal (width img) (height img) y d x = Some d' /\
                Inv d' /\ T x y d d') ->
  exists out (arr : nat -> list Z),
    floydSteinbergDither img pal = Some out /\
    width out = width img /\ height out = height img /\
    arr 0%nat = data img /\
    arr (width img * height img)%nat = data out /\
    forall x y, (x < width img)%nat -> (y < height img)%nat ->
      Inv (arr (y * width img + x)%nat) /\
      T x y (arr (y * width img + x)%nat) (arr (S (y * width img + x))).
Proof.
  intros H0 Hstep.
  destruct (floydSteinbergDither_inv
              (fun p d => Inv d /\
                 exists arr : nat -> list Z,
                   arr 0%nat = data img /\ arr p = d /\
                   forall x y, (x < width img)%nat -> (y < height img)%nat ->
                     (y * width img + x < p)%nat ->
                     Inv (arr (y * width img + x)%nat) /\
                     T x y (arr (y * width img + x)%nat) (arr (S (y * width img + x))))
              img pal) as (out & Hrun & [_ (arr & Ha0 & Hlast & Hall)] & Hw & Hh).
  - split; [done|]. exists (fun _ => data img). split; [done|]. split; [done|].
    intros x y _ _ Hlt. lia.
  - intros x y d Hx Hy [Hinv (arr & Ha0 & Hp & Hall)].
    destruct (Hstep x y d Hx Hy Hinv) as (d' & Hrun & Hinv' & Ht).
    exists d'. split; [done|]. split; [done|].
    set (p := (y * width img + x)%nat) in *.
    exists (fun k => if decide (k = S p) then d' else arr k).
    split; [by rewrite decide_False by lia|]. split; [by rewrite decide_True|].
    intros x' y' Hx' Hy' Hlt.
    rewrite (decide_False (P := (y' * width img + x')%nat = S p)) by lia.
    destruct (decide (y' * width img + x' = p)%nat) as [Heq|Hne].
    + destruct (raster_inj (width img) x' y' x y Hx' Hx Heq) as [-> ->]. fold p.
      rewrite decide_True by done. rewrite Hp. done.
    + rewrite decide_False by lia. apply Hall; [done..|lia].
  - exists out, arr. split; [done|]. split; [done|]. split; [done|]. split; [done|].
    split; [by rewrite Nat.mul_comm|].
    intros x y Hx Hy. apply Hall; [done..|].
    pose proof (raster_in_grid (width img) (height img) x y Hx Hy). lia.
Qed.

(** C2: the dither, on a well-formed image of bytes and a non-empty palette of
    byte triples, returns, and its result is reached from the input by one
    turn per pixel in raster order: [arr p] is the array before the turn at
    pixel number [p = y * width + x], [arr 0] the input and
    [arr (width * height)] the result, each turn working on the array that
    the turn before it left.  In the turn at [(x, y)], with [c] the palette
    entry nearest to the pixel as the array then holds it and, per channel,
    [err = old - new] (between -255 and 255), the pixel itself gets [c]; the
    in-grid pixel at [(x+1, y)] gets its value plus [err * 7/16], the one at
    [(x-1, y+1)] plus [err * 3/16], at [(x, y+1)] plus [err * 5/16], at
    [(x+1, y+1)] plus [err * 1/16], each channel by itself, clamped to
    [0, 255] and rounded by the byte store ([fs_exact]); every other byte of
    the grid, the alpha bytes included, keeps its value, so nothing wraps
    around a row end and nothing is written outside the grid. *)
Theorem floydSteinbergDither_diffuses_error (img : ImageData) (pal : palette) :
  pal <> [] -> palette_ok pal -> wf_image img -> bytes_ok img ->
  exists out (arr : nat -> list Z),
    floydSteinbergDither img pal = Some out /\
    width out = width img /\ height out = height img /\
    arr 0%nat = data img /\
    arr (width img * height img)%nat = data out /\
    forall x y, (x < width img)%nat -> (y < height img)%nat ->
      let p := (y * width img + x)%nat in
      let d := arr p in
      let d' := arr (S p) in
      length d' = length d /\
      exists c,
        findNearestPaletteColor (d !!! (p * 4)%nat) (d !!! (p * 4 + 1)%nat)
          (d !!! (p * 4 + 2)%nat) pal = Some c /\
        forall x' y', (x' < width img)%nat -> (y' < height img)%nat ->
          let q := (y' * width img + x')%nat in
          d' !!! (q * 4 + 3)%nat = d !!! (q * 4 + 3)%nat /\
          forall ch, (ch < 3)%nat ->
            let err := d !!! (p * 4 + ch)%nat - channel c ch in
            -255 <= err <= 255 /\
            d' !!! (q * 4 + ch)%nat =
              if decide (x' = x /\ y' = y) then channel c ch
              else match fs_weight x y x' y' with
                   | Some wgt => fs_exact (d !!! (q * 4 + ch)%nat) err wgt
                   | None => d !!! (q * 4 + ch)%nat
                   end.
Proof.
  intros Hne Hok Hwf Hb. unfold wf_image in Hwf. unfold bytes_ok in Hb.
  destruct (dither_trace
              (fun d => length d = (width img * height img * 4)%nat /\ Forall byte_ok d)
              (fun x y d d' =>
                 let p := (y * width img + x)%nat in
                 length d' = length d /\
                 exists c,
                   findNearestPaletteColor (d !!! (p * 4)%nat) (d !!! (p * 4 + 1)%nat)
                     (d !!! (p * 4 + 2)%nat) pal = Some c /\
                   forall x' y', (x' < width img)%nat -> (y' < height img)%nat ->
                     let q := (y' * width img + x')%nat in
                     d' !!! (q * 4 + 3)%nat = d !!! (q * 4 + 3)%nat /\
                     forall ch, (ch < 3)%nat ->
                       let err := d !!! (p * 4 + ch)%nat - channel c ch in
                       -255 <= err <= 255 /\
                       d' !!! (q * 4 + ch)%nat =
                         if decide (x' = x /\ y' = y) then channel c ch
                         else match fs_weight x y x' y' with
                              | Some wgt => fs_exact (d !!! (q * 4 + ch)%nat) err wgt
                              | None => d !!! (q * 4 + ch)%nat
                              end)
              img pal) as (out & arr & Hrun & Hw & Hh & Ha0 & Hlast & Hall).
  - done.
  - intros x y d Hx Hy [Hlen Hd].
    destruct (dither_pixel_turn pal (width img) (height img) x y d
                Hne Hok Hx Hy Hlen Hd) as (c & d' & Hc & Hrun & Hlen' & Hd' & Hpx).
    exists d'. split; [exact Hrun|]. split; [split; [congruence|exact Hd']|].
    split; [exact Hlen'|]. exists c. split; [exact Hc|]. exact Hpx.
  - exists out, arr. split; [done|]. split; [done|]. split; [done|]. split; [done|].
    split; [done|]. intros x y Hx Hy. exact (proj2 (Hall x y Hx Hy)).
Qed.

(** A 3 x 2 image: the turn at [(1, 0)] reaches all four neighbours. *)
Example dither_3x2 :
  floydSteinbergDither
    (mkImageData [100; 100; 100; 255; 100; 100; 100; 255; 100; 100; 100; 255;
                  100; 100; 100; 255; 100; 100; 100; 255; 100; 100; 100; 255] 3 2)
    [Color 0 0 0; Color 255 255 255]
  = Some (mkImageData [0; 0; 0; 255; 255; 255; 255; 255; 0; 0; 0; 255;
                         0; 0; 0; 255; 255; 255; 255; 255; 0; 0; 0; 255] 3 2).
Proof. vm_compute. reflexivity. Qed.

Lemma floydSteinbergDither_diffuses_error_witness :
  let img :=
    mkImageData [100; 100; 100; 255; 100; 100; 100; 255; 100; 100; 100; 255;
                 100; 100; 100; 255; 100; 100; 100; 255; 100; 100; 100; 255] 3 2 in
  let pal := [Color 0 0 0; Color 255 255 255] in
  exists out (arr : nat -> list Z),
    floydSteinbergDither img pal = Some out /\
    width out = width img /\ height out = height img /\
    arr 0%nat = data img /\
    arr (width img * height img)%nat = data out /\
    forall x y, (x < width img)%nat -> (y < height img)%nat ->
      let p := (y * width img + x)%nat in
      let d := arr p in
      let d' := arr (S p) in
      length d' = length d /\
      exists c,
        findNearestPaletteColor (d !!! (p * 4)%nat) (d !!! (p * 4 + 1)%nat)
          (d !!! (p * 4 + 2)%nat) pal = Some c /\
        forall x' y', (x' < width img)%nat -> (y' < height img)%nat ->
          let q := (y' * width img + x')%nat in
          d' !!! (q * 4 + 3)%nat = d !!! (q * 4 + 3)%nat /\
          forall ch, (ch < 3)%nat ->
            let err := d !!! (p * 4 + ch)%nat - channel c ch in
            -255 <= err <= 255 /\
            d' !!! (q * 4 + ch)%nat =
              if decide (x' = x /\ y' = y) then channel c ch
              else match fs_weight x y x' y' with
                   | Some wgt => fs_exact (d !!! (q * 4 + ch)%nat) err wgt
                   | None => d !!! (q * 4 + ch)%nat
                   end.
Proof.
  apply (floydSteinbergDither_diffuses_error
           (mkImageData [100; 100; 100; 255; 100; 100; 100; 255; 100; 100; 100; 255;
                         100; 100; 100; 255; 100; 100; 100; 255; 100; 100; 100; 255] 3 2)
           [Color 0 0 0; Color 255 255 255]).
  - done.
  - exact two_color_palette_ok.
  - reflexivity.
  - unfold bytes_ok, byte_ok. cbn. repeat constructor; lia.
Defined.

(** * Properties of the application *)

(** ** rgbToHex and the conversion back *)

Example rgbToHex_pads : rgbToHex 255 0 10 = "#ff000a"%string.
Proof. vm_compute. reflexivity. Qed.

(** A channel above 255 overflows into the digit that [slice(1)] drops. *)
Example rgbToHex_overflow : rgbToHex 256 0 0 = "#000000"%string.
Proof. vm_compute. reflexivity. Qed.

Example hexToRGB_mixed_case : hexToRGB "#FF000a" = (Some 255, Some 0, Some 10).
Proof. vm_compute. reflexivity. Qed.

Example hexToRGB_shorthand : hexToRGB "#fff" = (Some 255, Some 15, None).
Proof. vm_compute. reflexivity. Qed.

Lemma ToInt32_small z : 0 <= z < 2 ^ 31 -> ToInt32 z = z.
Proof.
  intros Hz. unfold ToInt32. cbv zeta.
  rewrite Z.mod_small by lia. destruct (Z.ltb_spec z (2 ^ 31)); [done | lia].
Qed.

Lemma shiftLeft_small a k :
  0 <= a < 2 ^ 31 -> 0 <= k < 32 -> a * 2 ^ k < 2 ^ 31 -> shiftLeft a k = a * 2 ^ k.
Proof.
  intros Ha Hk Hlt. unfold shiftLeft.
  rewrite (ToInt32_small a Ha), (Z.mod_small k 32) by lia.
  apply ToInt32_small. split; [|done]. apply Z.mul_nonneg_nonneg; [lia|].
  apply Z.pow_nonneg. lia.
Qed.

Lemma hex_go_more fuel q d acc :
  0 <= d < 16 -> 0 < q ->
  hex_go (S fuel) (16 * q + d) acc = hex_go fuel q (String (hex_digit d) acc).
Proof.
  intros Hd Hq. cbn [hex_go].
  replace ((16 * q + d) mod 16) with d by (apply (Z.mod_unique_pos _ _ q); lia).
  replace ((16 * q + d) / 16) with q by (apply (Z.div_unique_pos _ _ q d); lia).
  destruct (Z.ltb_spec (16 * q + d) 16); [lia | done].
Qed.

Lemma hex_go_last fuel d acc :
  0 <= d < 16 -> hex_go (S fuel) d acc = String (hex_digit d) acc.
Proof.
  intros Hd. cbn [hex_go]. rewrite (Z.mod_small d 16) by lia.
  destruct (Z.ltb_spec d 16); [done | lia].
Qed.

Lemma nibbles v : byte_ok v -> v = 16 * (v / 16) + v mod 16 /\ 0 <= v / 16 < 16 /\ 0 <= v mod 16 < 16.
Proof.
  unfold byte_ok. intros Hv.
  pose proof (Z.div_mod v 16 ltac:(lia)). pose proof (Z.mod_pos_bound v 16 ltac:(lia)).
  pose proof (Z.div_pos v 16 ltac:(lia) ltac:(lia)).
  pose proof (Z.div_lt_upper_bound v 16 16 ltac:(lia) ltac:(lia)).
  lia.
Qed.

Lemma rgbToHex_bytes r g b :
  byte_ok r -> byte_ok g -> byte_ok b ->
  rgbToHex r g b = String "#"%char (hex2 r ++ hex2 g ++ hex2 b)%string.
Proof.
  intros Hr Hg Hb.
  destruct (nibbles r Hr) as (Er & Hrh & Hrl), (nibbles g Hg) as (Eg & Hgh & Hgl),
    (nibbles b Hb) as (Eb & Hbh & Hbl).
  unfold byte_ok in *. unfold rgbToHex, hex2. cbv zeta.
  rewrite (shiftLeft_small 1 24), (shiftLeft_small r 16), (shiftLeft_small g 8) by lia.
  set (rh := r / 16) in *. set (rl := r mod 16) in *.
  set (gh := g / 16) in *. set (gl := g mod 16) in *.
  set (bh := b / 16) in *. set (bl := b mod 16) in *.
  set (n := 1 * 2 ^ 24 + r * 2 ^ 16 + g * 2 ^ 8 + b).
  assert (Hn : n = 16 * (16 * (16 * (16 * (16 * (16 * 1 + rh) + rl) + gh) + gl) + bh) + bl)
    by (subst n; lia).
  assert (Hlog : Z.log2 n = 24).
  { apply Z.log2_unique; [lia|]. subst n. lia. }
  unfold toString16. destruct (Z.ltb_spec n 0); [lia|].
  rewrite Hlog. change (S (Z.to_nat 24)) with 25%nat.
  rewrite Hn.
  do 6 (rewrite hex_go_more by lia). rewrite hex_go_last by lia.
  reflexivity.
Qed.

Lemma hex_digit_value d : 0 <= d < 16 -> digit_value (hex_digit d) = Some d.
Proof.
  intros Hd.
  assert (Hcase : d = 0 \/ d = 1 \/ d = 2 \/ d = 3 \/ d = 4 \/ d = 5 \/ d = 6 \/ d = 7 \/
                  d = 8 \/ d = 9 \/ d = 10 \/ d = 11 \/ d = 12 \/ d = 13 \/ d = 14 \/ d = 15)
    by lia.
  repeat (destruct Hcase as [-> | Hcase]; [reflexivity|]). by subst.
Qed.

(** rgbToHex on bytes writes [#] and two lower-case digits of base 16 for each
    channel, zero-padded: seven characters that form a well-formed colour. *)
Theorem rgbToHex_format (r g b : Z) :
  byte_ok r -> byte_ok g -> byte_ok b ->
  rgbToHex r g b = String "#"%char (hex2 r ++ hex2 g ++ hex2 b)%string /\
  String.length (rgbToHex r g b) = 7%nat /\
  is_hex_color (rgbToHex r g b) = true.
Proof.
  intros Hr Hg Hb. rewrite rgbToHex_bytes by done.
  split; [done|]. split; [done|].
  destruct (nibbles r Hr) as (_ & Hrh & Hrl), (nibbles g Hg) as (_ & Hgh & Hgl),
    (nibbles b Hb) as (_ & Hbh & Hbl).
  cbv [hex2 String.append is_hex_color].
  rewrite !hex_digit_value by done.
  reflexivity.
Qed.

Lemma rgbToHex_format_witness :
  rgbToHex 237 28 36 = String "#"%char (hex2 237 ++ hex2 28 ++ hex2 36)%string /\
  String.length (rgbToHex 237 28 36) = 7%nat /\
  is_hex_color (rgbToHex 237 28 36) = true.
Proof. apply (rgbToHex_format 237 28 36); unfold byte_ok; lia. Defined.

Lemma hex2_all : range_all 256 0 (fun v => parses_to (hex2 v) v) = true.
Proof. vm_compute. reflexivity. Qed.

Lemma parses_to_spec s v : parses_to s v = true -> parseInt16 s = Some v.
Proof.
  unfold parses_to. destruct (parseInt16 s) as [x|]; [|done].
  intros Hx%Z.eqb_eq. by subst.
Qed.

Lemma parseInt16_hex2 v : byte_ok v -> parseInt16 (hex2 v) = Some v.
Proof.
  intros Hv. apply parses_to_spec.
  apply (range_all_spec 256 0 (fun v => parses_to (hex2 v) v) v hex2_all).
  unfold byte_ok in Hv. lia.
Qed.

(** The conversions are inverse on bytes: the HEX to RGB conversion of
    processImage reads back the channels that rgbToHex wrote. *)
Theorem hexToRGB_rgbToHex (r g b : Z) :
  byte_ok r -> byte_ok g -> byte_ok b ->
  hexToRGB (rgbToHex r g b) = (Some r, Some g, Some b).
Proof.
  intros Hr Hg Hb. rewrite rgbToHex_bytes by done.
  unfold hexToRGB.
  change (slice (String "#" (hex2 r ++ hex2 g ++ hex2 b)) 1 3) with (hex2 r).
  change (slice (String "#" (hex2 r ++ hex2 g ++ hex2 b)) 3 5) with (hex2 g).
  change (slice (String "#" (hex2 r ++ hex2 g ++ hex2 b)) 5 7) with (hex2 b).
  by rewrite !parseInt16_hex2.
Qed.

Lemma hexToRGB_rgbToHex_witness : hexToRGB (rgbToHex 237 28 36) = (Some 237, Some 28, Some 36).
Proof. apply (hexToRGB_rgbToHex 237 28 36); unfold byte_ok; lia. Defined.

Lemma all_ascii_spec f c : all_ascii f = true -> f c = true.
Proof.
  unfold all_ascii. rewrite forallb_forall. intros Hall.
  rewrite <- (ascii_nat_embedding c). apply Hall.
  apply in_seq. pose proof (nat_ascii_bounded c). lia.
Qed.

Lemma two_digits_all : all_ascii (fun c1 => all_ascii (fun c2 => two_digits_ok c1 c2)) = true.
Proof. vm_compute. reflexivity. Qed.

Lemma parseInt16_two_digits c1 c2 v1 v2 :
  digit_value c1 = Some v1 -> digit_value c2 = Some v2 ->
  parseInt16 (String c1 (String c2 EmptyString)) = Some (16 * v1 + v2) /\
  byte_ok (16 * v1 + v2).
Proof.
  intros H1 H2.
  pose proof (all_ascii_spec _ c1 two_digits_all) as Hrow. cbv beta in Hrow.
  pose proof (all_ascii_spec _ c2 Hrow) as Hcell. cbv beta in Hcell.
  unfold two_digits_ok in Hcell. rewrite H1, H2 in Hcell.
  repeat (apply andb_prop in Hcell as [Hcell ?]).
  split; [by apply parses_to_spec|]. unfold byte_ok. lia.
Qed.

(** A well-formed [#RRGGBB], in either case of the letters, converts to three
    bytes, [16 * high + low] each. *)
Theorem hexToRGB_well_formed (c1 c2 c3 c4 c5 c6 : ascii) (v1 v2 v3 v4 v5 v6 : Z) :
  digit_value c1 = Some v1 -> digit_value c2 = Some v2 -> digit_value c3 = Some v3 ->
  digit_value c4 = Some v4 -> digit_value c5 = Some v5 -> digit_value c6 = Some v6 ->
  hexToRGB (String "#" (String c1 (String c2 (String c3 (String c4 (String c5
             (String c6 EmptyString)))))))
  = (Some (16 * v1 + v2), Some (16 * v3 + v4), Some (16 * v5 + v6)) /\
  byte_ok (16 * v1 + v2) /\ byte_ok (16 * v3 + v4) /\ byte_ok (16 * v5 + v6).
Proof.
  intros H1 H2 H3 H4 H5 H6.
  destruct (parseInt16_two_digits c1 c2 v1 v2 H1 H2) as [P1 B1].
  destruct (parseInt16_two_digits c3 c4 v3 v4 H3 H4) as [P2 B2].
  destruct (parseInt16_two_digits c5 c6 v5 v6 H5 H6) as [P3 B3].
  split; [|done]. unfold hexToRGB.
  change (slice _ 1 3) with (String c1 (String c2 EmptyString)).
  change (slice _ 3 5) with (String c3 (String c4 EmptyString)).
  change (slice _ 5 7) with (String c5 (String c6 EmptyString)).
  by rewrite P1, P2, P3.
Qed.

Lemma hexToRGB_well_formed_witness :
  hexToRGB "#Ed1c24" = (Some (16 * 14 + 13), Some (16 * 1 + 12), Some (16 * 2 + 4)) /\
  byte_ok (16 * 14 + 13) /\ byte_ok (16 * 1 + 12) /\ byte_ok (16 * 2 + 4).
Proof.
  apply (hexToRGB_well_formed "E" "d" "1" "c" "2" "4" 14 13 1 12 2 4); reflexivity.
Defined.

Lemma substring_past_end s n m : (String.length s <= n)%nat -> String.substring n m s = EmptyString.
Proof.
  revert n m. induction s as [|c s IH]; intros n m Hn.
  - by destruct n, m.
  - destruct n as [|n]; [cbn in Hn; lia|]. cbn. apply IH. cbn in Hn. lia.
Qed.

(** A colour shorter than [#RRGGB] has no blue digits: its blue channel is NaN,
    no error is raised. *)
Theorem hexToRGB_short_is_NaN (hex : string) :
  (String.length hex <= 5)%nat -> snd (hexToRGB hex) = None.
Proof.
  intros Hlen. unfold hexToRGB, slice. cbn [snd].
  by rewrite substring_past_end.
Qed.

Lemma hexToRGB_short_is_NaN_witness : snd (hexToRGB "#fff") = None.
Proof. apply (hexToRGB_short_is_NaN "#fff"). cbn. lia. Defined.

(** ** The palette and the colour selection *)

(** A colour named like a method of [Object.prototype] is read as selected
    from a state without that key, and toggling it stores [false]. *)
Example isSelected_inherited :
  isSelected ∅ "toString" = true /\
  finalPalette [mkPaletteColor "Black" "#000000"] [mkPaletteColor "toString" "#ffffff"] ∅
  = [mkPaletteColor "Black" "#000000"; mkPaletteColor "toString" "#ffffff"] /\
  handleColorSelectionChange "constructor" ∅ !! "constructor"%string = Some false /\
  deselectAllColors (initialSelectedColors [mkPaletteColor "__proto__" "#ffffff"])
  = (∅ : gmap string bool).
Proof. repeat split; vm_compute; reflexivity. Qed.

Lemma finalPalette_filter D S sel :
  finalPalette D S sel = (D ++ filter (fun c => isSelected sel (name c) = true) S)%list.
Proof.
  unfold finalPalette. revert D. induction S as [|c S IH]; intros D; cbn [foldl].
  - by rewrite filter_nil, app_nil_r.
  - rewrite IH, filter_cons. destruct (isSelected sel (name c)).
    + rewrite decide_True by done. by rewrite <- app_assoc.
    + by rewrite decide_False by done.
Qed.

Lemma assignProperty_lookup_ne key value (state : gmap string bool) k :
  k <> "__proto__"%string ->
  assignProperty key value state !! k = if decide (k = key) then Some value else state !! k.
Proof.
  intros Hk. unfold assignProperty.
  destruct (decide (key = "__proto__"%string /\ state !! key = None)) as [[-> _]|_].
  - by rewrite decide_False.
  - destruct (decide (k = key)) as [->|Hne].
    + by rewrite lookup_insert_eq.
    + by rewrite lookup_insert_ne.
Qed.

Lemma assignProperty_lookup_proto key value (state : gmap string bool) :
  state !! "__proto__"%string = None ->
  assignProperty key value state !! "__proto__"%string = None.
Proof.
  intros Hp. unfold assignProperty.
  destruct (decide (key = "__proto__"%string /\ state !! key = None)) as [_|Hn]; [done|].
  destruct (decide (key = "__proto__"%string)) as [->|Hne].
  - exfalso. by apply Hn.
  - by rewrite lookup_insert_ne.
Qed.

Lemma assign_all_lookup_ne (value : bool) (keys : list string) (k : string)
    (state : gmap string bool) :
  k <> "__proto__"%string ->
  foldl (fun state color => assignProperty color value state) state keys !! k
  = if decide (k ∈ keys) then Some value else state !! k.
Proof.
  intros Hk. revert state. induction keys as [|k' keys IH]; intros state; cbn [foldl].
  - rewrite decide_False; [done|]. apply not_elem_of_nil.
  - rewrite IH, assignProperty_lookup_ne by done.
    destruct (decide (k ∈ keys)) as [Hin|Hnin].
    + rewrite decide_True; [done|]. by apply list_elem_of_further.
    + destruct (decide (k = k')) as [->|Hne].
      * rewrite decide_True; [done|]. apply list_elem_of_here.
      * rewrite decide_False; [done|]. intros [?|?]%elem_of_cons; done.
Qed.

Lemma assign_all_lookup_proto (value : bool) (keys : list string) (state : gmap string bool) :
  state !! "__proto__"%string = None ->
  foldl (fun state color => assignProperty color value state) state keys !! "__proto__"%string
  = None.
Proof.
  revert state. induction keys as [|k' keys IH]; intros state Hp; cbn [foldl]; [done|].
  apply IH. by apply assignProperty_lookup_proto.
Qed.

Lemma elem_of_Object_keys (prev : gmap string bool) k :
  k ∈ Object_keys prev <-> is_Some (prev !! k).
Proof.
  unfold Object_keys. rewrite list_elem_of_fmap. split.
  - intros ([k' v] & -> & Hin). apply elem_of_map_to_list in Hin. by exists v.
  - intros [v Hv]. exists (k, v). split; [done|]. by apply elem_of_map_to_list.
Qed.

Lemma isSelected_assign_all (value : bool) (keys : list string) k :
  isSelected (foldl (fun state color => assignProperty color value state) ∅ keys) k
  = if decide (k ∈ keys /\ k <> "__proto__"%string) then value else inherited k.
Proof.
  unfold isSelected. destruct (decide (k = "__proto__"%string)) as [->|Hne].
  - rewrite assign_all_lookup_proto by apply lookup_empty.
    rewrite decide_False; [done|]. by intros [_ ?].
  - rewrite assign_all_lookup_ne, lookup_empty by done.
    destruct (decide (k ∈ keys)) as [Hin|Hnin].
    + by rewrite decide_True.
    + rewrite decide_False; [done|]. by intros [? _].
Qed.

Lemma isSelected_selectAllColor prev k :
  isSelected (selectAllColor prev) k = bool_decide (is_Some (prev !! k)) || inherited k.
Proof.
  unfold selectAllColor. rewrite isSelected_assign_all.
  destruct (decide (k ∈ Object_keys prev /\ k <> "__proto__"%string)) as [[Hin Hne]|Hn].
  - apply elem_of_Object_keys in Hin. by rewrite bool_decide_eq_true_2.
  - destruct (decide (is_Some (prev !! k))) as [Hs|Hs].
    + rewrite bool_decide_eq_true_2 by done. cbn.
      destruct (decide (k = "__proto__"%string)) as [->|Hne]; [done|].
      exfalso. apply Hn. split; [by apply elem_of_Object_keys|done].
    + by rewrite bool_decide_eq_false_2.
Qed.

Lemma isSelected_deselectAllColors prev k :
  isSelected (deselectAllColors prev) k
  = inherited k && bool_decide (prev !! k = None \/ k = "__proto__"%string).
Proof.
  unfold deselectAllColors. rewrite isSelected_assign_all.
  destruct (decide (k ∈ Object_keys prev /\ k <> "__proto__"%string)) as [[Hin Hne]|Hn].
  - apply elem_of_Object_keys in Hin as [v Hv].
    rewrite bool_decide_eq_false_2; [by rewrite andb_false_r|].
    intros [?|?]; [congruence|done].
  - rewrite bool_decide_eq_true_2; [by rewrite andb_true_r|].
    destruct (prev !! k) as [v|] eqn:Hk; [|by left]. right.
    destruct (decide (k = "__proto__"%string)) as [|Hne]; [done|].
    exfalso. apply Hn. split; [|done]. apply elem_of_Object_keys. by exists v.
Qed.

Lemma initialSelectedColors_names S :
  initialSelectedColors S
  = foldl (fun state color => assignProperty color true state) ∅ (name <$> S).
Proof.
  unfold initialSelectedColors. generalize (∅ : gmap string bool).
  induction S as [|c S IH]; intros m; [done|]. cbn. apply IH.
Qed.

Lemma isSelected_initial S k :
  k ∈ name <$> S -> isSelected (initialSelectedColors S) k = true.
Proof.
  intros Hin. rewrite initialSelectedColors_names, isSelected_assign_all.
  case_decide as Hd; [done|].
  destruct (decide (k = "__proto__"%string)) as [->|Hne]; [done|].
  exfalso. by apply Hd.
Qed.

Lemma filter_all {A} (P : A -> Prop) `{!forall x, Decision (P x)} (l : list A) :
  (forall x, x ∈ l -> P x) -> filter P l = l.
Proof.
  induction l as [|x l IH]; intros Hall; [done|].
  rewrite filter_cons, decide_True by (apply Hall, list_elem_of_here).
  f_equal. apply IH. intros y Hy. by apply Hall, list_elem_of_further.
Qed.

Lemma filter_none {A} (P : A -> Prop) `{!forall x, Decision (P x)} (l : list A) :
  (forall x, x ∈ l -> ~ P x) -> filter P l = [].
Proof.
  induction l as [|x l IH]; intros Hall; [done|].
  rewrite filter_cons, decide_False by (apply Hall, list_elem_of_here).
  apply IH. intros y Hy. by apply Hall, list_elem_of_further.
Qed.

(** finalPalette is the default colours, in their order, followed by the
    selectable colours for which [selectedColors[color.name]] is truthy (an
    own [true], or a name inherited from [Object.prototype] without an own
    key), in their order: the default colours are a prefix whatever the
    selection, and the palette is never empty when there is a default
    colour. *)
Theorem finalPalette_defaults_first (DEFAULT_COLORS SELECTABLE_COLORS : list paletteColor)
    (selectedColors : gmap string bool) :
  finalPalette DEFAULT_COLORS SELECTABLE_COLORS selectedColors
  = (DEFAULT_COLORS ++
     filter (fun c => isSelected selectedColors (name c) = true) SELECTABLE_COLORS)%list /\
  (forall colorName,
     isSelected selectedColors colorName = true <->
     selectedColors !! colorName = Some true \/
     (selectedColors !! colorName = None /\ colorName ∈ Object_prototype_names)) /\
  (DEFAULT_COLORS `prefix_of`
     finalPalette DEFAULT_COLORS SELECTABLE_COLORS selectedColors) /\
  (DEFAULT_COLORS <> [] ->
   finalPalette DEFAULT_COLORS SELECTABLE_COLORS selectedColors <> []).
Proof.
  rewrite finalPalette_filter. split; [done|]. split; [|split].
  - intros k. unfold isSelected, inherited. destruct (selectedColors !! k) as [[]|].
    + split; [by left|done].
    + split; [done|]. intros [?|[? _]]; done.
    + rewrite bool_decide_eq_true. split; [by right|]. intros [?|[_ ?]]; done.
  - by eexists.
  - intros Hne Heq. by apply app_eq_nil in Heq as [? _].
Qed.

(** With the initial state every selectable colour is in the palette.  The
    two buttons give every own key of the state the same value, except
    [__proto__], whose assignment creates no key: after "deselect all" the
    palette keeps, besides the default colours, exactly the selectable colours
    whose name is inherited from [Object.prototype] and is [__proto__] or not a
    key of the state, so none when no selectable colour has such a name;
    after "select all" it holds the selectable colours whose name is a key of
    the state or inherited, all of them when the state descends from the
    initial one. *)
Theorem finalPalette_select_all_none (DEFAULT_COLORS SELECTABLE_COLORS : list paletteColor)
    (prev : gmap string bool) :
  finalPalette DEFAULT_COLORS SELECTABLE_COLORS (initialSelectedColors SELECTABLE_COLORS)
  = (DEFAULT_COLORS ++ SELECTABLE_COLORS)%list /\
  finalPalette DEFAULT_COLORS SELECTABLE_COLORS (deselectAllColors prev)
  = (DEFAULT_COLORS ++
     filter (fun c => name c ∈ Object_prototype_names /\
                      (prev !! name c = None \/ name c = "__proto__"%string))
       SELECTABLE_COLORS)%list /\
  ((forall c, c ∈ SELECTABLE_COLORS -> name c ∉ Object_prototype_names) ->
   finalPalette DEFAULT_COLORS SELECTABLE_COLORS (deselectAllColors prev) = DEFAULT_COLORS) /\
  finalPalette DEFAULT_COLORS SELECTABLE_COLORS (selectAllColor prev)
  = (DEFAULT_COLORS ++
     filter (fun c => is_Some (prev !! name c) \/ name c ∈ Object_prototype_names)
       SELECTABLE_COLORS)%list /\
  finalPalette DEFAULT_COLORS SELECTABLE_COLORS
    (selectAllColor (deselectAllColors (initialSelectedColors SELECTABLE_COLORS)))
  = (DEFAULT_COLORS ++ SELECTABLE_COLORS)%list.
Proof.
  rewrite !finalPalette_filter.
  assert (Hin : forall c, c ∈ SELECTABLE_COLORS -> name c ∈ name <$> SELECTABLE_COLORS).
  { intros c Hc. apply list_elem_of_fmap. by exists c. }
  split; [|split; [|split; [|split]]].
  - f_equal. apply filter_all. intros c Hc. by apply isSelected_initial, Hin.
  - f_equal. apply list_filter_iff. intros c.
    rewrite isSelected_deselectAllColors. unfold inherited.
    rewrite andb_true_iff, !bool_decide_eq_true. done.
  - intros Hnone. rewrite filter_none; [by rewrite app_nil_r|].
    intros c Hc. rewrite isSelected_deselectAllColors. unfold inherited.
    rewrite bool_decide_eq_false_2 by by apply Hnone. done.
  - f_equal. apply list_filter_iff. intros c.
    rewrite isSelected_selectAllColor. unfold inherited.
    rewrite orb_true_iff, !bool_decide_eq_true. done.
  - f_equal. apply filter_all. intros c Hc. rewrite isSelected_selectAllColor.
    apply orb_true_iff.
    pose proof (isSelected_initial SELECTABLE_COLORS (name c) (Hin c Hc)) as Hs.
    unfold isSelected in Hs.
    destruct (initialSelectedColors SELECTABLE_COLORS !! name c) as [v|] eqn:Hk.
    + destruct (decide (name c = "__proto__"%string)) as [Hp|Hnp].
      * right. rewrite Hp. done.
      * left. apply bool_decide_eq_true_2. unfold deselectAllColors.
        rewrite assign_all_lookup_ne by done.
        rewrite decide_True; [by eexists|]. apply elem_of_Object_keys. by exists v.
    + by right.
Qed.

(** Ticking a colour's box stores the negation of what the colour read as
    (for a name inherited from [Object.prototype] and not yet a key, truthy,
    so [false] is stored) under an own key, and leaves every other key as it
    was; ticking it twice gives a state with the same palette. *)
Theorem handleColorSelectionChange_toggles (colorName : string) (prev : gmap string bool)
    (DEFAULT_COLORS SELECTABLE_COLORS : list paletteColor) :
  handleColorSelectionChange colorName prev !! colorName
  = Some (negb (isSelected prev colorName)) /\
  (forall k, k <> colorName -> handleColorSelectionChange colorName prev !! k = prev !! k) /\
  (forall k, isSelected (handleColorSelectionChange colorName prev) k
             = if decide (k = colorName) then negb (isSelected prev colorName)
               else isSelected prev k) /\
  (prev !! colorName = None ->
   isSelected (handleColorSelectionChange colorName prev) colorName = true <->
   colorName ∉ Object_prototype_names) /\
  finalPalette DEFAULT_COLORS SELECTABLE_COLORS
    (handleColorSelectionChange colorName (handleColorSelectionChange colorName prev))
  = finalPalette DEFAULT_COLORS SELECTABLE_COLORS prev.
Proof.
  assert (Hsel : forall prev k, isSelected (handleColorSelectionChange colorName prev) k
             = if decide (k = colorName) then negb (isSelected prev colorName)
               else isSelected prev k).
  { intros p k. unfold handleColorSelectionChange, isSelected at 1.
    destruct (decide (k = colorName)) as [->|Hne].
    - by rewrite lookup_insert_eq.
    - rewrite lookup_insert_ne by done. done. }
  split; [unfold handleColorSelectionChange; by rewrite lookup_insert_eq|].
  split; [intros k Hne; unfold handleColorSelectionChange; by rewrite lookup_insert_ne|].
  split; [apply Hsel|]. split.
  - intros Hnone. rewrite Hsel, decide_True by done.
    unfold isSelected, inherited. rewrite Hnone.
    rewrite negb_true_iff, bool_decide_eq_false. done.
  - rewrite !finalPalette_filter. f_equal. apply list_filter_iff. intros c.
    rewrite !Hsel. case_decide as Hk; [|done].
    rewrite decide_True by done. rewrite negb_involutive. by rewrite Hk.
Qed.

(** ** The palette handed to the colour stage *)

Lemma hexToRGB_color s :
  is_hex_color s = true -> exists c, numericColor (hexToRGB s) = Some c /\ color_ok c.
Proof.
  destruct s as [|a0 [|c1 [|c2 [|c3 [|c4 [|c5 [|c6 [|]]]]]]]]; try done.
  all: cbn [is_hex_color]; try by (destruct a0 as [[] [] [] [] [] [] [] []]).
  destruct (ascii_dec a0 "#") as [->|Hne];
    [|by (destruct a0 as [[] [] [] [] [] [] [] []])].
  intros H. repeat (apply andb_prop in H as [H ?]).
  repeat match goal with
         | H : bool_decide _ = true |- _ => apply bool_decide_eq_true in H as [? ?]
         end.
  repeat match goal with
         | H : is_true (bool_decide _) |- _ => apply bool_decide_eq_true in H as [? ?]
         end.
  match goal with
  | H1 : digit_value c1 = Some ?v1, H2 : digit_value c2 = Some ?v2,
    H3 : digit_value c3 = Some ?v3, H4 : digit_value c4 = Some ?v4,
    H5 : digit_value c5 = Some ?v5, H6 : digit_value c6 = Some ?v6 |- _ =>
      destruct (parseInt16_two_digits c1 c2 v1 v2 H1 H2) as [P1 B1];
      destruct (parseInt16_two_digits c3 c4 v3 v4 H3 H4) as [P2 B2];
      destruct (parseInt16_two_digits c5 c6 v5 v6 H5 H6) as [P3 B3];
      exists (Color (16 * v1 + v2) (16 * v3 + v4) (16 * v5 + v6))
  end.
  split; [|done]. unfold hexToRGB.
  change (slice _ 1 3) with (String c1 (String c2 EmptyString)).
  change (slice _ 3 5) with (String c3 (String c4 EmptyString)).
  change (slice _ 5 7) with (String c5 (String c6 EmptyString)).
  by rewrite P1, P2, P3.
Qed.

Lemma numericPalette_hex (fp : list paletteColor) :
  (forall c, c ∈ fp -> is_hex_color (hex c) = true) ->
  exists pal, numericPalette (finalPaletteRGB fp) = Some pal /\
              palette_ok pal /\ length pal = length fp.
Proof.
  unfold numericPalette, finalPaletteRGB.
  induction fp as [|c fp IH]; intros Hall.
  - exists []. split; [done|]. split; [apply Forall_nil_2|done].
  - destruct IH as (pal & Hpal & Hok & Hlen).
    { intros c' Hc'. by apply Hall, list_elem_of_further. }
    destruct (hexToRGB_color (hex c)) as (k & Hk & Hkok); [apply Hall, list_elem_of_here|].
    exists (k :: pal). split; [|split].
    + cbn [fmap list_fmap mapM]. rewrite Hk. cbn. fold (mapM numericColor).
      change (list_fmap _ _ ?f ?l) with (f <$> l). rewrite Hpal. done.
    + by apply Forall_cons.
    + cbn. by rewrite Hlen.
Qed.

(** When every colour of the two tables is a well-formed [#RRGGBB] and there is
    a default colour, the palette that processImage hands to the colour stage
    has no NaN, is not empty and holds bytes only, one entry per colour of
    [finalPalette], whatever the selection. *)
Theorem processImage_palette_ok (DEFAULT_COLORS SELECTABLE_COLORS : list paletteColor)
    (selectedColors : gmap string bool) :
  (forall c, c ∈ DEFAULT_COLORS ++ SELECTABLE_COLORS -> is_hex_color (hex c) = true) ->
  DEFAULT_COLORS <> [] ->
  exists pal,
    numericPalette
      (finalPaletteRGB (finalPalette DEFAULT_COLORS SELECTABLE_COLORS selectedColors))
    = Some pal /\
    pal <> [] /\ palette_ok pal /\
    length pal = length (finalPalette DEFAULT_COLORS SELECTABLE_COLORS selectedColors).
Proof.
  intros Hall Hne.
  destruct (numericPalette_hex (finalPalette DEFAULT_COLORS SELECTABLE_COLORS selectedColors))
    as (pal & Hpal & Hok & Hlen).
  - intros c. rewrite finalPalette_filter. intros Hc. apply Hall.
    apply elem_of_app in Hc as [Hc|Hc]; apply elem_of_app; [by left|right].
    by apply list_elem_of_filter in Hc as [_ ?].
  - exists pal. split; [done|]. split; [|done].
    intros ->. rewrite finalPalette_filter in Hlen. rewrite length_app in Hlen.
    destruct DEFAULT_COLORS; [done|]. cbn in Hlen. lia.
Qed.

Lemma processImage_palette_ok_witness :
  exists pal,
    numericPalette
      (finalPaletteRGB (finalPalette [mkPaletteColor "Black" "#000000"]
         [mkPaletteColor "Red" "#ED1C24"] (initialSelectedColors [mkPaletteColor "Red" "#ED1C24"])))
    = Some pal /\
    pal <> [] /\ palette_ok pal /\
    length pal = length (finalPalette [mkPaletteColor "Black" "#000000"]
         [mkPaletteColor "Red" "#ED1C24"] (initialSelectedColors [mkPaletteColor "Red" "#ED1C24"])).
Proof.
  apply (processImage_palette_ok [mkPaletteColor "Black" "#000000"]
           [mkPaletteColor "Red" "#ED1C24"]); [|done].
  intros c [->|[->|[]%elem_of_nil]%elem_of_cons]%elem_of_cons; reflexivity.
Defined.

(** ** processImage: block size and crop *)

(** With dithering or "skip pixelation" checked the block size is 1 and the
    image is processed at its own size, uncropped. *)
Theorem processImage_full_size (ditherChecked noPixelateChecked : bool)
    (blockSize originalWidth originalHeight : Z) :
  ditherChecked || noPixelateChecked = true ->
  1 <= originalWidth -> 1 <= originalHeight ->
  let currentBlockSize := effectiveBlockSize ditherChecked noPixelateChecked blockSize in
  let adjustedSize := adjustImageSize originalWidth originalHeight currentBlockSize in
  currentBlockSize = 1 /\
  adjustedSize = mkSize originalWidth originalHeight /\
  cropOffsets originalWidth originalHeight adjustedSize = (0 # 2, 0 # 2).
Proof.
  intros Hflag Hw Hh. unfold effectiveBlockSize. rewrite Hflag. cbv zeta.
  split; [done|].
  assert (Hadj : adjustImageSize originalWidth originalHeight 1
                 = mkSize originalWidth originalHeight).
  { unfold adjustImageSize. rewrite !Z.div_1_r, !Z.mul_1_r. f_equal; lia. }
  rewrite Hadj. split; [done|]. unfold cropOffsets. cbn [size_width size_height].
  by rewrite !Z.sub_diag.
Qed.

Lemma processImage_full_size_witness :
  let currentBlockSize := effectiveBlockSize true false 8 in
  let adjustedSize := adjustImageSize 37 21 currentBlockSize in
  currentBlockSize = 1 /\
  adjustedSize = mkSize 37 21 /\
  cropOffsets 37 21 adjustedSize = (0 # 2, 0 # 2).
Proof. apply (processImage_full_size true false 8 37 21); [reflexivity | lia | lia]. Defined.

(** For a source of at least one block per axis the crop is centred and stays
    inside the source: fewer than [blockSize] pixels are cut per axis, as much
    on one side as on the other. *)
Theorem processImage_crop_centered (originalWidth originalHeight blockSize : Z) :
  1 <= blockSize -> blockSize <= originalWidth -> blockSize <= originalHeight ->
  let adjustedSize := adjustImageSize originalWidth originalHeight blockSize in
  let offsetX := (cropOffsets originalWidth originalHeight adjustedSize).1 in
  let offsetY := (cropOffsets originalWidth originalHeight adjustedSize).2 in
  size_width adjustedSize <= originalWidth < size_width adjustedSize + blockSize /\
  size_height adjustedSize <= originalHeight < size_height adjustedSize + blockSize /\
  (0 <= offsetX)%Q /\ (0 <= offsetY)%Q /\
  (offsetX + inject_Z (size_width adjustedSize) + offsetX == inject_Z originalWidth)%Q /\
  (offsetY + inject_Z (size_height adjustedSize) + offsetY == inject_Z originalHeight)%Q.
Proof.
  intros Hbs Hw Hh. cbv zeta. unfold cropOffsets, adjustImageSize.
  cbn [size_width size_height fst snd].
  assert (Hax : forall a, blockSize <= a ->
            Z.max (a / blockSize * blockSize) blockSize <= a
            < Z.max (a / blockSize * blockSize) blockSize + blockSize).
  { intros a Ha.
    pose proof (Z.div_mod a blockSize ltac:(lia)) as Hdm.
    pose proof (Z.mod_pos_bound a blockSize ltac:(lia)) as Hmod.
    assert (1 <= a / blockSize) by (apply Z.div_le_lower_bound; lia).
    assert (blockSize <= a / blockSize * blockSize) by nia.
    lia. }
  pose proof (Hax originalWidth Hw) as Hxw. pose proof (Hax originalHeight Hh) as Hxh.
  set (aw := Z.max (originalWidth / blockSize * blockSize) blockSize) in *.
  set (ah := Z.max (originalHeight / blockSize * blockSize) blockSize) in *.
  split; [done|]. split; [done|].
  unfold Qle, Qeq, Qplus, Qminus, Qopp, inject_Z. cbn.
  repeat split; lia.
Qed.

Lemma processImage_crop_centered_witness :
  let adjustedSize := adjustImageSize 37 21 8 in
  let offsetX := (cropOffsets 37 21 adjustedSize).1 in
  let offsetY := (cropOffsets 37 21 adjustedSize).2 in
  size_width adjustedSize <= 37 < size_width adjustedSize + 8 /\
  size_height adjustedSize <= 21 < size_height adjustedSize + 8 /\
  (0 <= offsetX)%Q /\ (0 <= offsetY)%Q /\
  (offsetX + inject_Z (size_width adjustedSize) + offsetX == inject_Z 37)%Q /\
  (offsetY + inject_Z (size_height adjustedSize) + offsetY == inject_Z 21)%Q.
Proof. apply (processImage_crop_centered 37 21 8); lia. Defined.

(** A source narrower than a block is not cropped but given the width of one
    block: the horizontal crop offset is negative and the crop window reaches
    outside the source. *)
Theorem adjustImageSize_small_source (originalWidth originalHeight blockSize : Z) :
  0 <= originalWidth < blockSize ->
  size_width (adjustImageSize originalWidth originalHeight blockSize) = blockSize /\
  ((cropOffsets originalWidth originalHeight
      (adjustImageSize originalWidth originalHeight blockSize)).1 < 0)%Q.
Proof.
  intros Hw. unfold cropOffsets, adjustImageSize. cbn [size_width size_height fst].
  rewrite Z.div_small by lia. rewrite Z.mul_0_l.
  split; [lia|]. unfold Qlt. cbn. lia.
Qed.

Lemma adjustImageSize_small_source_witness :
  size_width (adjustImageSize 5 21 8) = 8 /\
  ((cropOffsets 5 21 (adjustImageSize 5 21 8)).1 < 0)%Q.
Proof. apply (adjustImageSize_small_source 5 21 8). lia. Defined.

(** ** flattenAlpha on bytes *)

Lemma flatten_formula_range c a :
  byte_ok c -> 0 <= a < 255 -> c <= flatten_formula c a <= 255.
Proof.
  unfold byte_ok. intros Hc Ha.
  pose proof (flatten_formula_nearest c a) as Hn.
  set (f := flatten_formula c a) in *.
  assert (255 * c <= c * a + 255 * (255 - a)) by nia.
  assert (c * a + 255 * (255 - a) <= 255 * 255) by nia.
  lia.
Qed.

Lemma flatten_formula_transparent c : flatten_formula c 0 = 255.
Proof.
  pose proof (flatten_formula_nearest c 0) as Hn.
  rewrite Z.mul_0_r, Z.sub_0_r in Hn. lia.
Qed.

Lemma flattenAlpha_pixel_bytes img k r g b a :
  byte_ok r -> byte_ok g -> byte_ok b -> byte_ok a ->
  pixel_at (data img) k = Some (r, g, b, a) ->
  exists r' g' b',
    pixel_at (data (flattenAlpha img)) k = Some (r', g', b', 255) /\
    r <= r' <= 255 /\ g <= g' <= 255 /\ b <= b' <= 255 /\
    (a = 0 -> r' = 255 /\ g' = 255 /\ b' = 255) /\
    (a = 255 -> r' = r /\ g' = g /\ b' = b).
Proof.
  intros Hr Hg Hb Ha Hpx. rewrite (flattenAlpha_pixel_at _ _ _ _ _ _ Hpx).
  unfold byte_ok in Ha. destruct (Z.ltb_spec a 255) as [Hlt|Hge].
  - rewrite !blend_formula by (done || lia).
    pose proof (flatten_formula_range r a Hr ltac:(lia)).
    pose proof (flatten_formula_range g a Hg ltac:(lia)).
    pose proof (flatten_formula_range b a Hb ltac:(lia)).
    eexists _, _, _. split; [done|].
    split; [done|]. split; [done|]. split; [done|]. split.
    + intros ->. by rewrite !flatten_formula_transparent.
    + intros ->. lia.
  - assert (a = 255) as -> by lia. unfold byte_ok in *.
    exists r, g, b. split; [done|]. repeat split; lia.
Qed.

Lemma flattenAlpha_bytes_ok img : bytes_ok img -> bytes_ok (flattenAlpha img).
Proof.
  unfold bytes_ok. intros Hb. apply Forall_lookup. intros j v Hv.
  pose proof (lookup_lt_Some _ _ _ Hv) as Hj. rewrite flattenAlpha_length in Hj.
  rewrite Forall_lookup in Hb.
  pose proof (div4_bounds j) as Hq.
  destruct (decide (4 * (j / 4) + 3 < length (data img))%nat) as [Hin|Hout].
  - destruct (pixel_at_is_Some (data img) (j / 4) Hin) as (r & g & b & a & Hpx).
    pose proof Hpx as (H0 & H1 & H2 & H3)%pixel_at_Some.
    destruct (flattenAlpha_pixel_bytes img (j / 4) r g b a) as (r' & g' & b' & Hout & ? & ? & ? & _);
      [by eapply Hb..|done|].
    apply pixel_at_Some in Hout as (O0 & O1 & O2 & O3).
    pose proof (Hb _ _ H0). pose proof (Hb _ _ H1). pose proof (Hb _ _ H2).
    unfold byte_ok in *.
    assert (Hcase : (j = 4 * (j / 4) \/ j = 4 * (j / 4) + 1 \/ j = 4 * (j / 4) + 2
                     \/ j = 4 * (j / 4) + 3)%nat) by lia.
    destruct Hcase as [Hc|[Hc|[Hc|Hc]]]; rewrite Hc in Hv; simplify_eq; lia.
  - rewrite flattenAlpha_lookup in Hv by done.
    rewrite flatten_pixel_opaque in Hv; [by eapply Hb|].
    intros a Ha. apply lookup_lt_Some in Ha. lia.
Qed.

Lemma flattenAlpha_all_opaque img k a :
  bytes_ok img -> data (flattenAlpha img) !! (4 * k + 3)%nat = Some a -> a = 255.
Proof.
  intros Hb Ha. pose proof (flattenAlpha_alpha_opaque img k a Ha).
  pose proof (flattenAlpha_bytes_ok img Hb) as Hb'. unfold bytes_ok in Hb'.
  rewrite Forall_lookup in Hb'. specialize (Hb' _ _ Ha). unfold byte_ok in Hb'. lia.
Qed.

(** Flattening composites on white: on an image of bytes no channel gets
    darker, a fully transparent pixel becomes white, every pixel comes out with
    alpha 255, and all bytes stay bytes. *)
Theorem flattenAlpha_brightens (img : ImageData) (k : nat) (r g b a : Z) :
  bytes_ok img ->
  pixel_at (data img) k = Some (r, g, b, a) ->
  bytes_ok (flattenAlpha img) /\
  exists r' g' b',
    pixel_at (data (flattenAlpha img)) k = Some (r', g', b', 255) /\
    r <= r' <= 255 /\ g <= g' <= 255 /\ b <= b' <= 255 /\
    (a = 0 -> r' = 255 /\ g' = 255 /\ b' = 255).
Proof.
  intros Hb Hpx. split; [by apply flattenAlpha_bytes_ok|].
  pose proof Hpx as (H0 & H1 & H2 & H3)%pixel_at_Some.
  unfold bytes_ok in Hb. rewrite Forall_lookup in Hb.
  destruct (flattenAlpha_pixel_bytes img k r g b a) as (r' & g' & b' & Hout & ? & ? & ? & Ht & _);
    [by eapply Hb..|done|].
  by exists r', g', b'.
Qed.

Lemma flattenAlpha_brightens_witness :
  let img := mkImageData [10; 20; 30; 128; 1; 2; 3; 255; 0; 0; 0; 0] 3 1 in
  bytes_ok (flattenAlpha img) /\
  exists r' g' b',
    pixel_at (data (flattenAlpha img)) 2 = Some (r', g', b', 255) /\
    0 <= r' <= 255 /\ 0 <= g' <= 255 /\ 0 <= b' <= 255 /\
    (0 = 0 -> r' = 255 /\ g' = 255 /\ b' = 255).
Proof.
  apply (flattenAlpha_brightens
           (mkImageData [10; 20; 30; 128; 1; 2; 3; 255; 0; 0; 0; 0] 3 1) 2 0 0 0 0).
  - unfold bytes_ok, byte_ok. cbn. repeat constructor; lia.
  - reflexivity.
Defined.

(** ** The colour stage of processImage *)

Lemma quantize_palette_pixels img pal out :
  pal <> [] -> palette_ok pal -> wf_image img ->
  quantizeToNearestColor img pal = Some out ->
  wf_image out /\
  forall k a, (k < width img * height img)%nat ->
    data img !! (4 * k + 3)%nat = Some a ->
    exists c, c ∈ pal /\ pixel_at (data out) k = Some (cR c, cG c, cB c, a).
Proof.
  intros Hne Hok Hwf Hq.
  destruct (quantize_length _ _ _ Hq Hne) as (Hlen & Hw & Hh).
  unfold wf_image in *. split; [by rewrite Hlen, Hw, Hh|].
  intros k a Hk Ha.
  destruct (pixel_at_is_Some (data img) k) as (r & g & b & a' & Hpx); [lia|].
  pose proof Hpx as (_ & _ & _ & Ha')%pixel_at_Some.
  rewrite Ha in Ha'. injection Ha' as <-.
  destruct (findNearestPaletteColor_is_Some r g b pal Hne) as (i & c & Hc & Hi & _).
  exists c. split; [by eapply list_elem_of_lookup_2|].
  rewrite (quantize_pixel_at _ _ _ _ _ _ _ _ _ Hq Hne Hpx Hc).
  destruct (palette_ok_lookup _ _ _ Hok Hi) as (HR & HG & HB).
  by rewrite !store_byte.
Qed.

Lemma dither_palette_alpha img pal :
  pal <> [] -> palette_ok pal -> wf_image img ->
  exists out,
    floydSteinbergDither img pal = Some out /\
    wf_image out /\ width out = width img /\ height out = height img /\
    (forall k, data out !! (4 * k + 3)%nat = data img !! (4 * k + 3)%nat) /\
    (forall k, (k < width img * height img)%nat -> palette_pixel pal (data out) k).
Proof.
  intros Hne Hok Hwf. unfold wf_image in Hwf.
  destruct (floydSteinbergDither_inv
              (fun p d => alpha_kept (data img) p d /\
                          visited_in_palette pal (width img * height img * 4) p d) img pal)
    as (out & Hrun & [Hk [Hlen Hvis]] & Hw & Hh).
  - split; [by intros k|]. split; [done|]. intros q Hq. lia.
  - intros x y d Hx Hy [Hk Hv].
    destruct (dither_alpha_step pal _ (height img) _ x y d Hne Hk) as (d1 & Hd1 & Hk1).
    destruct (dither_palette_step pal _ _ x y d Hne Hok Hx Hy Hv) as (d2 & Hd2 & Hv2).
    rewrite Hd1 in Hd2. injection Hd2 as <-. by exists d1.
  - exists out. split; [done|]. split; [unfold wf_image; by rewrite Hw, Hh|].
    split; [done|]. split; [done|]. split; [exact Hk|].
    intros k Hk'. apply Hvis. lia.
Qed.

(** The colour stage of processImage, on a well-formed image of bytes and a
    non-empty palette of byte triples, returns an image of the same size whose
    every pixel is a palette colour with alpha 255, with or without
    dithering. *)
Theorem colorStage_opaque_palette (ditherChecked : bool) (imageData : ImageData)
    (finalPaletteRGB : palette) :
  finalPaletteRGB <> [] -> palette_ok finalPaletteRGB ->
  wf_image imageData -> bytes_ok imageData ->
  exists out,
    colorStage ditherChecked imageData finalPaletteRGB = Some out /\
    wf_image out /\ width out = width imageData /\ height out = height imageData /\
    forall k, (k < width imageData * height imageData)%nat ->
      exists c, c ∈ finalPaletteRGB /\
                pixel_at (data out) k = Some (cR c, cG c, cB c, 255).
Proof.
  intros Hne Hok Hwf Hb. unfold colorStage. cbv zeta.
  set (flat := flattenAlpha imageData).
  assert (Hwf' : wf_image flat).
  { unfold wf_image in *. subst flat. by rewrite flattenAlpha_length. }
  assert (Hop : forall k a, data flat !! (4 * k + 3)%nat = Some a -> a = 255).
  { intros k a. by apply flattenAlpha_all_opaque. }
  assert (Hdim : width flat = width imageData /\ height flat = height imageData) by done.
  destruct Hdim as [Hfw Hfh].
  destruct ditherChecked.
  - destruct (dither_palette_alpha flat finalPaletteRGB Hne Hok Hwf')
      as (out & Hrun & Hwo & Hw & Hh & Hk & Hpal).
    exists out. split; [done|]. split; [done|]. split; [congruence|]. split; [congruence|].
    intros k Hlt. rewrite <- Hfw, <- Hfh in Hlt.
    destruct (Hpal k Hlt) as (c & Hc & H0 & H1 & H2).
    unfold wf_image in Hwo. rewrite Hw, Hh in Hwo.
    destruct (lookup_lt_is_Some_2 (data out) (4 * k + 3)%nat ltac:(lia)) as [a Ha].
    exists c. split; [done|]. apply pixel_at_Some.
    repeat split; try done. rewrite Ha. f_equal. apply (Hop k). by rewrite <- Hk.
  - pose proof (quantize_run flat finalPaletteRGB Hne) as Hrun.
    destruct (quantize_palette_pixels flat finalPaletteRGB _ Hne Hok Hwf' Hrun) as [Hwo Hpx].
    eexists. split; [exact Hrun|]. split; [done|]. split; [done|]. split; [done|].
    intros k Hlt. rewrite <- Hfw, <- Hfh in Hlt.
    unfold wf_image in Hwf'.
    destruct (lookup_lt_is_Some_2 (data flat) (4 * k + 3)%nat ltac:(lia)) as [a Ha].
    destruct (Hpx k a Hlt Ha) as (c & Hc & Hout).
    exists c. split; [done|]. by rewrite <- (Hop k a Ha).
Qed.

Lemma colorStage_opaque_palette_witness :
  let imageData := mkImageData [128; 128; 128; 255; 128; 128; 128; 40] 2 1 in
  let finalPaletteRGB := [Color 0 0 0; Color 255 255 255] in
  exists out,
    colorStage true imageData finalPaletteRGB = Some out /\
    wf_image out /\ width out = width imageData /\ height out = height imageData /\
    forall k, (k < width imageData * height imageData)%nat ->
      exists c, c ∈ finalPaletteRGB /\
                pixel_at (data out) k = Some (cR c, cG c, cB c, 255).
Proof.
  apply (colorStage_opaque_palette true
           (mkImageData [128; 128; 128; 255; 128; 128; 128; 40] 2 1)
           [Color 0 0 0; Color 255 255 255]).
  - done.
  - exact two_color_palette_ok.
  - reflexivity.
  - unfold bytes_ok, byte_ok. cbn. repeat constructor; lia.
Defined.

(** ** The dither on an image of palette colours *)

Lemma fs_exact_zero v w : byte_ok v -> fs_exact v 0 w = v.
Proof.
  unfold byte_ok, fs_exact. intros Hv. cbv zeta.
  rewrite Z.mul_0_l, Z.add_0_r.
  replace (Z.max 0 (Z.min (255 * 16) (16 * v))) with (v * 16) by lia.
  rewrite Z.div_mul, Z.mod_mul by lia. done.
Qed.

Lemma fs_store_zero v w :
  byte_ok v -> w = 7 \/ w = 3 \/ w = 5 \/ w = 1 -> fs_store v 0 w = v.
Proof.
  intros Hv Hw. rewrite fs_store_exact by (done || lia). by apply fs_exact_zero.
Qed.

Lemma insert_fs_store_zero (d : list Z) i w :
  (forall v, d !! i = Some v -> byte_ok v) -> w = 7 \/ w = 3 \/ w = 5 \/ w = 1 ->
  <[i := fs_store (d !!! i) 0 w]> d = d.
Proof.
  intros Hb Hw. apply list_insert_id'. intros Hi.
  rewrite list_lookup_lookup_total_lt by done. f_equal. symmetry.
  apply fs_store_zero; [|done]. apply Hb. by apply list_lookup_lookup_total_lt.
Qed.

Lemma diffuse_zero (d : list Z) n w :
  (forall i v, (n <= i < n + 3)%nat -> d !! i = Some v -> byte_ok v) ->
  w = 7 \/ w = 3 \/ w = 5 \/ w = 1 ->
  diffuse d n 0 0 0 w = d.
Proof.
  intros Hb Hw. unfold diffuse. cbv zeta.
  rewrite (insert_fs_store_zero d n) by (done || (intros v; apply Hb; lia)).
  rewrite (insert_fs_store_zero d (n + 1)) by (done || (intros v; apply Hb; lia)).
  apply insert_fs_store_zero; [|done]. intros v; apply Hb; lia.
Qed.

Lemma palette_pixel_bytes pal (d : list Z) (npix : nat) :
  palette_ok pal -> (forall q, (q < npix)%nat -> palette_pixel pal d q) ->
  forall i v, (i < npix * 4)%nat -> (i <> 4 * (i / 4) + 3)%nat -> d !! i = Some v -> byte_ok v.
Proof.
  intros Hok Hpal i v Hi Hna Hv.
  pose proof (div4_bounds i) as Hq.
  destruct (Hpal (i / 4)%nat ltac:(lia)) as (c & Hc & H0 & H1 & H2).
  unfold palette_ok in Hok. rewrite Forall_forall in Hok.
  destruct (Hok c Hc) as (HR & HG & HB).
  assert (Hcase : (i = 4 * (i / 4) \/ i = 4 * (i / 4) + 1 \/ i = 4 * (i / 4) + 2)%nat) by lia.
  destruct Hcase as [Hc'|[Hc'|Hc']]; rewrite Hc' in Hv; simplify_eq; done.
Qed.

Lemma dither_update_fixed pal c w h y (d : list Z) x :
  palette_ok pal -> (x < w)%nat -> (y < h)%nat -> length d = (w * h * 4)%nat ->
  (forall q, (q < w * h)%nat -> palette_pixel pal d q) ->
  color_ok c ->
  d !! ((y * w + x) * 4)%nat = Some (cR c) ->
  d !! ((y * w + x) * 4 + 1)%nat = Some (cG c) ->
  d !! ((y * w + x) * 4 + 2)%nat = Some (cB c) ->
  dither_update c w h y d x = d.
Proof.
  intros Hok Hx Hy Hlen Hpal (HR & HG & HB) H0 H1 H2.
  unfold dither_update. cbv zeta.
  rewrite (list_lookup_total_correct _ _ _ H0), (list_lookup_total_correct _ _ _ H1),
    (list_lookup_total_correct _ _ _ H2), !Z.sub_diag, !store_byte by done.
  rewrite (list_insert_id d _ _ H0), (list_insert_id d _ _ H1), (list_insert_id d _ _ H2).
  pose proof (palette_pixel_bytes pal d (w * h) Hok Hpal) as Hbytes.
  assert (Hz : forall n wt, (exists q, n = q * 4 /\ q < w * h)%nat ->
                 wt = 7 \/ wt = 3 \/ wt = 5 \/ wt = 1 -> diffuse d n 0 0 0 wt = d).
  { intros n wt (q & -> & Hq) Hwt. apply diffuse_zero; [|done].
    intros i v Hi Hv. apply (Hbytes i v); [lia| |done].
    pose proof (div4_bounds i). lia. }
  assert (Hrow : ((y + 1 < h) -> (y + 1) * w + w <= w * h)%nat).
  { intros Hy1. assert ((y + 2) * w <= h * w)%nat by (apply Nat.mul_le_mono_r; lia). lia. }
  assert (Hrow0 : ((y + 1) * w <= w * h)%nat).
  { assert ((y + 1) * w <= h * w)%nat by (apply Nat.mul_le_mono_r; lia). lia. }
  repeat case_decide; rewrite ?Hz; try done; try lia; eexists; (split; [done|lia]).
Qed.

Lemma dither_pixel_fixed pal w h y (d : list Z) x :
  palette_ok pal -> (x < w)%nat -> (y < h)%nat -> length d = (w * h * 4)%nat ->
  (forall q, (q < w * h)%nat -> palette_pixel pal d q) ->
  dither_pixel pal w h y d x = Some d.
Proof.
  intros Hok Hx Hy Hlen Hpal.
  pose proof (raster_in_grid w h x y Hx Hy) as Hp.
  destruct (Hpal (y * w + x)%nat Hp) as (c & Hc & H0 & H1 & H2).
  replace (4 * (y * w + x))%nat with ((y * w + x) * 4)%nat in * by lia.
  rewrite dither_pixel_in_range by lia.
  rewrite (list_lookup_total_correct _ _ _ H0), (list_lookup_total_correct _ _ _ H1),
    (list_lookup_total_correct _ _ _ H2).
  assert (Hne : pal <> []) by (intros ->; by apply elem_of_nil in Hc).
  destruct (findNearestPaletteColor_is_Some (cR c) (cG c) (cB c) pal Hne) as (i & c' & Hc' & _).
  rewrite Hc'. cbn. f_equal.
  rewrite (findNearestPaletteColor_fixed pal c c' Hc Hc').
  apply (dither_update_fixed pal); try done.
  unfold palette_ok in Hok. rewrite Forall_forall in Hok. by apply Hok.
Qed.

Lemma dither_palette_image_fixed img pal :
  palette_ok pal -> wf_image img ->
  (forall q, (q < width img * height img)%nat -> palette_pixel pal (data img) q) ->
  floydSteinbergDither img pal = Some img.
Proof.
  intros Hok Hwf Hpal. unfold wf_image in Hwf.
  destruct (floydSteinbergDither_inv (fun _ d => d = data img) img pal)
    as (out & Hrun & Hd & Hw & Hh).
  - done.
  - intros x y d Hx Hy ->. exists (data img). split; [|done].
    by apply dither_pixel_fixed.
  - rewrite Hrun. f_equal. destruct out, img. cbn in *. by subst.
Qed.

(** The dither leaves an image alone whose pixels all hold palette colours:
    the errors are zero and every store writes back what it read. *)
Theorem floydSteinbergDither_fixes_palette_images (img : ImageData) (pal : palette) :
  palette_ok pal -> wf_image img ->
  (forall k, (k < width img * height img)%nat ->
     exists c a, c ∈ pal /\ pixel_at (data img) k = Some (cR c, cG c, cB c, a)) ->
  floydSteinbergDither img pal = Some img.
Proof.
  intros Hok Hwf Hpx. apply dither_palette_image_fixed; [done..|].
  intros q Hq. destruct (Hpx q Hq) as (c & a & Hc & (H0 & H1 & H2 & _)%pixel_at_Some).
  by exists c.
Qed.

Lemma floydSteinbergDither_fixes_palette_images_witness :
  floydSteinbergDither (mkImageData [255; 255; 255; 255; 0; 0; 0; 7] 2 1)
    [Color 0 0 0; Color 255 255 255]
  = Some (mkImageData [255; 255; 255; 255; 0; 0; 0; 7] 2 1).
Proof.
  apply (floydSteinbergDither_fixes_palette_images
           (mkImageData [255; 255; 255; 255; 0; 0; 0; 7] 2 1)
           [Color 0 0 0; Color 255 255 255]).
  - exact two_color_palette_ok.
  - reflexivity.
  - intros [|[|k]] Hk.
    + exists (Color 255 255 255), 255. split; [|reflexivity].
      apply list_elem_of_further, list_elem_of_here.
    + exists (Color 0 0 0), 7. split; [|reflexivity]. apply list_elem_of_here.
    + cbn in Hk. lia.
Defined.

(** Dithering is a projection, and the quantizer lands in its fixed points:
    for a non-empty palette of bytes and a well-formed image, both reductions
    return, and dithering either result again changes nothing. *)
Theorem floydSteinbergDither_after_reduction (img : ImageData) (pal : palette) :
  pal <> [] -> palette_ok pal -> wf_image img ->
  exists quantized dithered,
    quantizeToNearestColor img pal = Some quantized /\
    floydSteinbergDither quantized pal = Some quantized /\
    floydSteinbergDither img pal = Some dithered /\
    floydSteinbergDither dithered pal = Some dithered.
Proof.
  intros Hne Hok Hwf.
  pose proof (quantize_run img pal Hne) as Hrun.
  destruct (dither_palette_alpha img pal Hne Hok Hwf)
    as (out' & Hrun' & Hwo' & Hw' & Hh' & _ & Hpal').
  eexists _, out'. split; [exact Hrun|]. split; [|split; [exact Hrun'|]].
  - destruct (quantize_palette_pixels img pal _ Hne Hok Hwf Hrun) as [Hwo Hpx].
    destruct (quantize_length _ _ _ Hrun Hne) as (Hlen & Hw & Hh).
    apply dither_palette_image_fixed; [done..|].
    intros q Hq. rewrite Hw, Hh in Hq. unfold wf_image in Hwf.
    destruct (lookup_lt_is_Some_2 (data img) (4 * q + 3)%nat ltac:(lia)) as [a Ha].
    destruct (Hpx q a Hq Ha) as (c & Hc & (H0 & H1 & H2 & _)%pixel_at_Some).
    by exists c.
  - apply dither_palette_image_fixed; [done..|].
    intros q Hq. apply Hpal'. by rewrite <- Hw', <- Hh'.
Qed.

Lemma floydSteinbergDither_after_reduction_witness :
  let img := mkImageData [128; 128; 128; 255; 128; 128; 128; 255] 2 1 in
  let pal := [Color 0 0 0; Color 255 255 255] in
  exists quantized dithered,
    quantizeToNearestColor img pal = Some quantized /\
    floydSteinbergDither quantized pal = Some quantized /\
    floydSteinbergDither img pal = Some dithered /\
    floydSteinbergDither dithered pal = Some dithered.
Proof.
  apply (floydSteinbergDither_after_reduction
           (mkImageData [128; 128; 128; 255; 128; 128; 128; 255] 2 1)
           [Color 0 0 0; Color 255 255 255]).
  - done.
  - exact two_color_palette_ok.
  - reflexivity.
Defined.

(** ** The search over the palette *)

(** The quantizer and the dither keep the colours of the palette: a colour of
    the palette is found as itself, wherever it stands and whatever else the
    palette holds. *)
Theorem findNearestPaletteColor_finds_members (pal : palette) (e : color) :
  e ∈ pal -> findNearestPaletteColor (cR e) (cG e) (cB e) pal = Some e.
Proof.
  intros He.
  assert (Hne : pal <> []) by (intros ->; by apply elem_of_nil in He).
  destruct (findNearestPaletteColor_is_Some (cR e) (cG e) (cB e) pal Hne) as (k & e' & He' & _).
  rewrite He'. f_equal. by apply (findNearestPaletteColor_fixed pal).
Qed.

Lemma findNearestPaletteColor_finds_members_witness :
  findNearestPaletteColor 255 255 255 [Color 0 0 0; Color 255 255 255]
  = Some (Color 255 255 255).
Proof.
  apply (findNearestPaletteColor_finds_members [Color 0 0 0; Color 255 255 255]
           (Color 255 255 255)).
  apply list_elem_of_further, list_elem_of_here.
Defined.

(** The order of the palette does not change how near the result is: on a
    reordered palette the search returns an entry at the same distance, so
    the order only chooses among equally near entries. *)
Theorem findNearestPaletteColor_order_free (r g b : Z) (pal pal' : palette) (c : color) :
  pal ≡ₚ pal' ->
  findNearestPaletteColor r g b pal = Some c ->
  exists c', findNearestPaletteColor r g b pal' = Some c' /\
             distance r g b c' = distance r g b c.
Proof.
  intros Hperm Hc.
  assert (Hne : pal <> []) by (intros ->; done).
  assert (Hne' : pal' <> []).
  { intros ->. by apply Permutation_nil_r in Hperm. }
  destruct (findNearestPaletteColor_is_Some r g b pal Hne) as (i & c1 & H1 & Hi & Hmin & _).
  destruct (findNearestPaletteColor_is_Some r g b pal' Hne') as (i' & c2 & H2 & Hi' & Hmin' & _).
  rewrite Hc in H1. simplify_eq. exists c2. split; [done|].
  assert (Hin : c1 ∈ pal') by (rewrite <- Hperm; by eapply list_elem_of_lookup_2).
  assert (Hin' : c2 ∈ pal) by (rewrite Hperm; by eapply list_elem_of_lookup_2).
  apply list_elem_of_lookup in Hin as [j Hj]. apply list_elem_of_lookup in Hin' as [j' Hj'].
  specialize (Hmin _ _ Hj'). specialize (Hmin' _ _ Hj). lia.
Qed.

Lemma findNearestPaletteColor_order_free_witness :
  exists c', findNearestPaletteColor 128 128 128 [Color 255 255 255; Color 1 1 1] = Some c' /\
             distance 128 128 128 c' = distance 128 128 128 (Color 1 1 1).
Proof.
  apply (findNearestPaletteColor_order_free 128 128 128
           [Color 1 1 1; Color 255 255 255] [Color 255 255 255; Color 1 1 1] (Color 1 1 1)).
  - apply perm_swap.
  - reflexivity.
Defined.

(** ** The empty palette *)

Lemma for_each_first_None {A} (body : A -> nat -> option A) a i l :
  body a i = None -> for_each body a (i :: l) = None.
Proof. intros Hb. cbn. by rewrite Hb. Qed.

Lemma read_nearest_empty oR oG oB : read_nearest oR oG oB [] = None.
Proof. by destruct oR, oG, oB. Qed.

(** With an empty palette the search returns [undefined] for every colour:
    the dither throws on any image that has a pixel, and the quantizer throws
    exactly when the array has a byte. *)
Theorem empty_palette_throws (img : ImageData) (r g b : Z) :
  (0 < width img)%nat -> (0 < height img)%nat ->
  findNearestPaletteColor r g b [] = None /\
  floydSteinbergDither img [] = None /\
  (quantizeToNearestColor img [] = None <-> data img <> []).
Proof.
  intros Hw Hh. split; [done|]. split.
  - unfold floydSteinbergDither.
    destruct (height img) as [|h]; [lia|]. cbn [seq].
    rewrite for_each_first_None; [done|].
    unfold dither_row. destruct (width img) as [|w]; [lia|]. cbn [seq].
    apply for_each_first_None. unfold dither_pixel. cbv zeta.
    by rewrite read_nearest_empty.
  - split.
    + intros Hnone Hd. destruct img as [d w h]. cbn in Hd. subst. done.
    + intros Hd. unfold quantizeToNearestColor, pixel_offsets.
      destruct (data img) as [|v d] eqn:Hdata; [done|].
      cbn [length]. destruct ((S (length d) + 3) / 4)%nat as [|n] eqn:Hn.
      { pose proof (div4_bounds (S (length d) + 3)). lia. }
      cbn [seq fmap list_fmap]. rewrite for_each_first_None; [done|].
      unfold quantize_pixel. by rewrite read_nearest_empty.
Qed.

Lemma empty_palette_throws_witness :
  let img := mkImageData [1; 2; 3; 255] 1 1 in
  findNearestPaletteColor 1 2 3 [] = None /\
  floydSteinbergDither img [] = None /\
  (quantizeToNearestColor img [] = None <-> data img <> []).
Proof.
  apply (empty_palette_throws (mkImageData [1; 2; 3; 255] 1 1) 1 2 3); cbn; lia.
Defined.

(** ** pixelateImage in the pipeline *)

(** On a canvas of the adjusted size and a block size of 2 or more the small
    canvas that pixelateImage draws through has one pixel per block: its
    sides times the block size are the sides of the canvas, and the canvas
    keeps its size. *)
Theorem pixelateImage_blocks_align
    (getContext : Canvas -> bool) (drawImage : Canvas -> Z -> Z -> list Z)
    (originalWidth originalHeight blockSize : Z) (pixels : list Z) :
  2 <= blockSize ->
  let adjustedSize := adjustImageSize originalWidth originalHeight blockSize in
  let canvas := mkCanvas (size_width adjustedSize) (size_height adjustedSize) pixels in
  let smallWidth := size_width adjustedSize / blockSize in
  let smallHeight := size_height adjustedSize / blockSize in
  let pixelated := (pixelateImage getContext drawImage canvas blockSize).1 in
  1 <= smallWidth /\ 1 <= smallHeight /\
  smallWidth * blockSize = canvas_width canvas /\
  smallHeight * blockSize = canvas_height canvas /\
  canvas_width pixelated = canvas_width canvas /\
  canvas_height pixelated = canvas_height canvas /\
  (getContext canvas = true ->
   getContext (mkCanvas smallWidth smallHeight []) = true ->
   canvas_pixels pixelated =
   drawImage (mkCanvas smallWidth smallHeight (drawImage canvas smallWidth smallHeight))
     (canvas_width canvas) (canvas_height canvas)).
Proof.
  intros Hbs. cbv zeta. unfold adjustImageSize.
  cbn [size_width size_height canvas_width canvas_height].
  assert (Hax : forall a, let m := Z.max (a / blockSize * blockSize) blockSize in
            1 <= m / blockSize /\ m / blockSize * blockSize = m).
  { intros a m.
    assert (Hm : exists k, 1 <= k /\ m = k * blockSize).
    { subst m. destruct (Z.max_spec (a / blockSize * blockSize) blockSize) as [[Hlt ->]|[Hge ->]].
      - exists 1. lia.
      - exists (a / blockSize). split; [|done]. nia. }
    destruct Hm as (k & Hk & ->). rewrite Z.div_mul by lia. done. }
  destruct (Hax originalWidth) as [Hw1 Hw2]. destruct (Hax originalHeight) as [Hh1 Hh2].
  cbv zeta in Hw1, Hw2, Hh1, Hh2.
  set (W := Z.max (originalWidth / blockSize * blockSize) blockSize) in *.
  set (H := Z.max (originalHeight / blockSize * blockSize) blockSize) in *.
  unfold pixelateImage. cbn [canvas_width canvas_height].
  destruct (Z.leb_spec blockSize 1) as [|_]; [lia|].
  rewrite !Z.max_r by lia.
  repeat split; try done.
  - by destruct (negb _ || negb _).
  - by destruct (negb _ || negb _).
  - intros -> ->. done.
Qed.

Lemma pixelateImage_blocks_align_witness :
  let getContext := fun _ : Canvas => true in
  let drawImage := fun (c : Canvas) (w h : Z) => canvas_pixels c in
  let adjustedSize := adjustImageSize 37 21 8 in
  let canvas := mkCanvas (size_width adjustedSize) (size_height adjustedSize) [] in
  let smallWidth := size_width adjustedSize / 8 in
  let smallHeight := size_height adjustedSize / 8 in
  let pixelated := (pixelateImage getContext drawImage canvas 8).1 in
  1 <= smallWidth /\ 1 <= smallHeight /\
  smallWidth * 8 = canvas_width canvas /\
  smallHeight * 8 = canvas_height canvas /\
  canvas_width pixelated = canvas_width canvas /\
  canvas_height pixelated = canvas_height canvas /\
  (getContext canvas = true ->
   getContext (mkCanvas smallWidth smallHeight []) = true ->
   canvas_pixels pixelated =
   drawImage (mkCanvas smallWidth smallHeight (drawImage canvas smallWidth smallHeight))
     (canvas_width canvas) (canvas_height canvas)).
Proof.
  apply (pixelateImage_blocks_align (fun _ => true) (fun c _ _ => canvas_pixels c) 37 21 8 []).
  lia.
Defined.

(** ** ImagePreview: dragging and zooming the canvas *)

Lemma placeAxis_in_view canvasSize containerSize newPos :
  in_view canvasSize containerSize (placeAxis canvasSize containerSize newPos).
Proof.
  unfold in_view, placeAxis. destruct (Qlt_le_dec containerSize canvasSize) as [Hlt|Hle].
  - cbv zeta. split; [apply Q.le_max_l|].
    apply Q.max_lub; [|apply Q.le_min_r].
    unfold Qminus. rewrite <- (Qplus_opp_r canvasSize).
    apply Qplus_le_l. by apply Qlt_le_weak.
  - set (m := ((containerSize - canvasSize) / 2)%Q).
    assert (Hm : (m + m == containerSize - canvasSize)%Q) by (subst m; field).
    assert (H0 : (0 <= containerSize - canvasSize)%Q).
    { unfold Qminus. rewrite <- (Qplus_opp_r canvasSize). by apply Qplus_le_l. }
    assert (Hm0 : (0 <= m)%Q).
    { subst m. apply Qle_shift_div_l; [done|]. by rewrite Qmult_0_l. }
    split; [done|]. split.
    + assert (Heq : (containerSize == m + canvasSize + m)%Q).
      { rewrite <- (Qplus_comm m), Qplus_assoc, Hm. ring. }
      rewrite Heq. rewrite <- (Qplus_0_r (m + canvasSize)) at 1.
      by apply Qplus_le_r.
    + rewrite <- (Qplus_comm m), Qplus_assoc, Hm. ring.
Qed.

Lemma placeAxis_fixed canvasSize containerSize pos :
  in_view canvasSize containerSize pos ->
  (placeAxis canvasSize containerSize pos == pos)%Q.
Proof.
  unfold in_view, placeAxis. destruct (Qlt_le_dec containerSize canvasSize) as [Hlt|Hle].
  - intros [Hlo Hhi]. cbv zeta. rewrite (Q.min_l pos 0) by done. by rewrite Q.max_r.
  - intros (_ & _ & Heq). rewrite <- Heq. field.
Qed.

Lemma handle_settled st ev : settled st -> settled (handle st ev).
Proof.
  unfold settled. destruct st as [z d s c i], ev; cbn;
    try destruct d; cbn; intros H; try done; auto.
Qed.

(** After any sequence of events, when no drag is in progress the position a
    drag would start from is the position shown: a new drag continues from
    where the canvas is. *)
Theorem preview_drag_origin_invariant (evs : list event) :
  settled (foldl handle initialPreviewState evs).
Proof.
  generalize initialPreviewState, (ltac:(done) : settled initialPreviewState).
  induction evs as [|ev evs IH]; intros st Hst; [done|].
  cbn [foldl]. apply IH. by apply handle_settled.
Qed.

(** A mouse or touch move during a drag leaves the canvas in view on both
    axes: covering the container where it is the larger, centred in it
    otherwise, whatever the pointer position. *)
Theorem drag_keeps_canvas_in_view (clientX clientY : Q) (l : Layout) (st : PreviewState)
    (ev : event) :
  isDragging st = true ->
  ev = MouseMove clientX clientY l \/ ev = TouchMove clientX clientY l ->
  placed (canvasWidth l) (canvasHeight l) (containerWidth l) (containerHeight l)
    (canvasPosition (handle st ev)).
Proof.
  intros Hd [-> | ->]; cbn; unfold handleMouseMove, handleTouchMove; rewrite Hd;
    split; apply placeAxis_in_view.
Qed.

Lemma drag_keeps_canvas_in_view_witness :
  placed 800 600 300 700
    (canvasPosition
       (handle (mkPreviewState 2 true (mkPoint 10 10) (mkPoint 0 0) (mkPoint 0 0))
               (MouseMove 50 5 (mkLayout 800 600 400 300 300 700)))).
Proof.
  apply (drag_keeps_canvas_in_view 50 5 (mkLayout 800 600 400 300 300 700)); [done|by left].
Defined.

(** A zoom change sets the zoom level and puts the canvas in view for its new
    size, and makes that position the origin of the next drag. *)
Theorem handleZoomChange_places (newZoomLevel : Q) (l : Layout) (st : PreviewState) :
  let st' := handle st (ZoomChange newZoomLevel l) in
  zoomLevel st' = newZoomLevel /\
  placed (processedWidth l * newZoomLevel) (processedHeight l * newZoomLevel)
    (containerWidth l) (containerHeight l) (canvasPosition st') /\
  initialPosition st' = canvasPosition st'.
Proof.
  cbn. split; [done|]. split; [|done]. split; apply placeAxis_in_view.
Qed.

Lemma moves_keep_drag l ms : forall st,
  isDragging st = true ->
  let st' := foldl handle st (moveTo l <$> ms) in
  isDragging st' = true /\ dragStart st' = dragStart st /\
  initialPosition st' = initialPosition st /\ zoomLevel st' = zoomLevel st.
Proof.
  induction ms as [|m ms IH]; intros st Hd; [done|].
  cbn [fmap list_fmap foldl].
  set (st1 := handle st (moveTo l m)).
  assert (H1 : isDragging st1 = true /\ dragStart st1 = dragStart st /\
               initialPosition st1 = initialPosition st /\ zoomLevel st1 = zoomLevel st).
  { subst st1. cbn. unfold handleMouseMove. by rewrite Hd. }
  destruct H1 as (Hd1 & Hs1 & Hi1 & Hz1).
  destruct (IH st1 Hd1) as (? & ? & ? & ?).
  cbn zeta. repeat split; congruence.
Qed.

Lemma drag_gesture_run st x0 y0 x1 y1 ms l :
  foldl handle st
    (MouseDown x0 y0 :: (moveTo l <$> ms) ++ [MouseMove x1 y1 l; MouseUp]) =
  let p := mkPoint
    (placeAxis (canvasWidth l) (containerWidth l) (point_x (initialPosition st) + (x1 - x0)))
    (placeAxis (canvasHeight l) (containerHeight l) (point_y (initialPosition st) + (y1 - y0)))
  in mkPreviewState (zoomLevel st) false (mkPoint x0 y0) p p.
Proof.
  cbn [foldl]. rewrite foldl_app.
  destruct (moves_keep_drag l ms (handle st (MouseDown x0 y0)) eq_refl)
    as (Hd & Hs & Hi & Hz).
  cbn [foldl]. cbn [handle] in *.
  set (st2 := foldl handle _ _) in *.
  unfold handleMouseUp, handleMouseMove. rewrite Hd. cbn. rewrite Hs, Hi, Hz. cbn.
  done.
Qed.

(** Of a drag (button down, moves, button up) only the first and the last
    pointer position count: the moves in between leave no trace in the
    state. *)
Theorem drag_last_move_wins (st : PreviewState) (x0 y0 x1 y1 : Q) (ms : list (Q * Q))
    (l : Layout) :
  foldl handle st (MouseDown x0 y0 :: (moveTo l <$> ms) ++ [MouseMove x1 y1 l; MouseUp]) =
  foldl handle st [MouseDown x0 y0; MouseMove x1 y1 l; MouseUp].
Proof.
  rewrite drag_gesture_run. symmetry. exact (drag_gesture_run st x0 y0 x1 y1 [] l).
Qed.

(** A drag of a canvas larger than its container, started with the drag
    origin at the position shown and ending inside the allowed range, moves
    the canvas by exactly the displacement of the pointer and ends the
    drag. *)
Theorem drag_translates_canvas (st : PreviewState) (x0 y0 x1 y1 : Q) (ms : list (Q * Q))
    (l : Layout) :
  initialPosition st = canvasPosition st ->
  (containerWidth l < canvasWidth l)%Q ->
  (containerHeight l < canvasHeight l)%Q ->
  (containerWidth l - canvasWidth l <= point_x (canvasPosition st) + (x1 - x0) <= 0)%Q ->
  (containerHeight l - canvasHeight l <= point_y (canvasPosition st) + (y1 - y0) <= 0)%Q ->
  let st' := foldl handle st
    (MouseDown x0 y0 :: (moveTo l <$> ms) ++ [MouseMove x1 y1 l; MouseUp]) in
  isDragging st' = false /\
  (point_x (canvasPosition st') == point_x (canvasPosition st) + (x1 - x0))%Q /\
  (point_y (canvasPosition st') == point_y (canvasPosition st) + (y1 - y0))%Q /\
  initialPosition st' = canvasPosition st'.
Proof.
  intros Hi Hw Hh Hx Hy. rewrite drag_gesture_run. cbn. rewrite Hi.
  split; [done|]. split; [|split; [|done]]; apply placeAxis_fixed; unfold in_view.
  - destruct (Qlt_le_dec (containerWidth l) (canvasWidth l)); [done|lra].
  - destruct (Qlt_le_dec (containerHeight l) (canvasHeight l)); [done|lra].
Qed.

Lemma drag_translates_canvas_witness :
  let l := mkLayout 800 600 400 300 300 200 in
  let st' := foldl handle initialPreviewState
    (MouseDown 100 100 :: (moveTo l <$> [(90%Q, 120%Q)]) ++ [MouseMove 60 70 l; MouseUp]) in
  isDragging st' = false /\
  (point_x (canvasPosition st') == 0 + (60 - 100))%Q /\
  (point_y (canvasPosition st') == 0 + (70 - 100))%Q /\
  initialPosition st' = canvasPosition st'.
Proof.
  apply (drag_translates_canvas initialPreviewState 100 100 60 70 [(90%Q, 120%Q)]
           (mkLayout 800 600 400 300 300 200)); cbn; try done; split; done.
Defined.

(** ** ImagePreview: the grid *)

Lemma nthStep_S k p : (nthStep (S k) p == nthStep k p + p)%Q.
Proof.
  unfold nthStep. rewrite Nat2Z.inj_succ. unfold Z.succ. rewrite inject_Z_plus.
  change (inject_Z 1) with 1%Q. ring.
Qed.

Lemma nthStep_0 p : (nthStep 0 p == 0)%Q.
Proof. unfold nthStep. change (inject_Z (Z.of_nat 0)) with 0%Q. ring. Qed.

Lemma gridSteps_spec (limit p : Q) (n : nat) : forall (fuel : nat) (x : Q),
  (0 < p)%Q ->
  (n < fuel)%nat ->
  (forall j, (j < n)%nat -> x + nthStep j p <= limit)%Q ->
  (limit < x + nthStep n p)%Q ->
  length (gridSteps fuel x limit p) = n /\
  forall j, (j < n)%nat ->
    exists v, gridSteps fuel x limit p !! j = Some v /\ (v == x + nthStep j p)%Q.
Proof.
  induction n as [|n IH]; intros fuel x Hp Hf Hin Hout.
  - destruct fuel as [|fuel]; [lia|]. cbn.
    destruct (Qle_bool x limit) eqn:E.
    + apply Qle_bool_iff in E. rewrite nthStep_0 in Hout. lra.
    + split; [done|]. intros j Hj. lia.
  - destruct fuel as [|fuel]; [lia|]. cbn.
    destruct (Qle_bool x limit) eqn:E.
    + destruct (IH fuel (x + p)%Q Hp ltac:(lia)) as [Hlen Hnth].
      * intros j Hj. pose proof (Hin (S j) ltac:(lia)) as H.
        rewrite nthStep_S in H. lra.
      * rewrite nthStep_S in Hout. lra.
      * split; [cbn; by rewrite Hlen|].
        intros [|j] Hj.
        -- exists x. split; [done|]. rewrite nthStep_0. lra.
        -- destruct (Hnth j ltac:(lia)) as (v & Hv & Hq).
           exists v. split; [done|]. rewrite nthStep_S. lra.
    + pose proof (Hin 0%nat ltac:(lia)) as H. rewrite nthStep_0 in H.
      assert (Hx : (x <= limit)%Q) by lra.
      apply Qle_bool_iff in Hx. congruence.
Qed.

Lemma nthStep_mono j k p : (0 < p)%Q -> (j <= k)%nat -> (nthStep j p <= nthStep k p)%Q.
Proof.
  intros Hp Hjk. unfold nthStep. apply Qmult_le_compat_r; [|lra].
  rewrite <- Zle_Qle. lia.
Qed.

Lemma floor_steps limit p :
  (0 < p)%Q -> (0 <= limit)%Q ->
  let m := Z.to_nat (Qfloor (limit / p)) in
  (nthStep m p <= limit)%Q /\ (limit < nthStep (S m) p)%Q.
Proof.
  intros Hp Hl m.
  assert (Hdiv : (0 <= limit / p)%Q) by (apply Qle_shift_div_l; lra).
  pose proof (Qfloor_resp_le _ _ Hdiv) as Hf. change (Qfloor 0) with 0%Z in Hf.
  assert (Hm : Z.of_nat m = Qfloor (limit / p)) by (subst m; lia).
  assert (Hlim : (limit == limit / p * p)%Q) by (field; lra).
  split.
  - unfold nthStep. rewrite Hm. rewrite Hlim at 2.
    apply Qmult_le_compat_r; [apply Qfloor_le|lra].
  - unfold nthStep. rewrite Nat2Z.inj_succ, Hm. unfold Z.succ. rewrite Hlim at 1.
    apply Qmult_lt_compat_r; [done|apply Qlt_floor].
Qed.

Lemma gridSteps_run limit p :
  (0 < p)%Q -> (0 <= limit)%Q ->
  let steps := gridSteps (gridFuel limit p) 0 limit p in
  let n := S (Z.to_nat (Qfloor (limit / p))) in
  length steps = n /\
  forall j, (j < n)%nat -> exists v, steps !! j = Some v /\ (v == nthStep j p)%Q.
Proof.
  intros Hp Hl steps n.
  destruct (floor_steps limit p Hp Hl) as [Hlo Hhi].
  destruct (gridSteps_spec limit p n (gridFuel limit p) 0 Hp) as [Hlen Hnth].
  - unfold gridFuel. subst n. lia.
  - intros j Hj. pose proof (nthStep_mono j (Z.to_nat (Qfloor (limit / p))) p Hp) as H.
    subst n. specialize (H ltac:(lia)). lra.
  - subst n. lra.
  - split; [done|]. intros j Hj. destruct (Hnth j Hj) as (v & Hv & Hq).
    exists v. split; [done|]. lra.
Qed.

Lemma gridSteps_negative limit p fuel : (limit < 0)%Q -> gridSteps fuel 0 limit p = [].
Proof.
  intros Hl. destruct fuel as [|fuel]; [done|]. cbn.
  destruct (Qle_bool 0 limit) eqn:E; [|done]. apply Qle_bool_iff in E. lra.
Qed.

(** The loop of [drawGrid] ends by its own test: with a positive step it makes
    fewer steps than [gridFuel] allows. *)
Lemma gridSteps_stops limit p :
  (0 < p)%Q ->
  (length (gridSteps (gridFuel limit p) 0 limit p) < gridFuel limit p)%nat.
Proof.
  intros Hp. destruct (Qlt_le_dec limit 0) as [Hneg|Hpos].
  - rewrite gridSteps_negative by done. unfold gridFuel. cbn. lia.
  - destruct (gridSteps_run limit p Hp Hpos) as [-> _]. unfold gridFuel. lia.
Qed.

Lemma floor_multiple (m : nat) (p : Q) :
  (0 < p)%Q -> Z.to_nat (Qfloor (nthStep m p / p)) = m.
Proof.
  intros Hp. rewrite (Qfloor_comp _ (inject_Z (Z.of_nat m))).
  - rewrite Qfloor_Z. lia.
  - unfold nthStep. field. lra.
Qed.

Lemma gridSteps_blocks (m : nat) (limit p : Q) :
  (0 < p)%Q -> (limit == nthStep m p)%Q ->
  let steps := gridSteps (gridFuel limit p) 0 limit p in
  length steps = S m /\
  forall j, (j <= m)%nat -> exists v, steps !! j = Some v /\ (v == nthStep j p)%Q.
Proof.
  intros Hp Hl steps.
  assert (H0 : (0 <= limit)%Q).
  { rewrite Hl. rewrite <- (nthStep_0 p). apply nthStep_mono; [done|lia]. }
  destruct (gridSteps_run limit p Hp H0) as [Hlen Hnth].
  assert (Hm : Z.to_nat (Qfloor (limit / p)) = m).
  { rewrite <- (floor_multiple m p Hp). f_equal. apply Qfloor_comp. by rewrite Hl. }
  rewrite Hm in Hlen, Hnth. split; [done|]. intros j Hj. apply Hnth. lia.
Qed.

(** For a processed canvas of [columns] by [rows] blocks, a zoom of 2 or more
    and a displayed block of 4 pixels or more, drawCanvas strokes
    [columns + 1] vertical and then [rows + 1] horizontal lines, the [k]-th on
    the [k]-th block boundary, across the whole canvas, the last on its far
    edge. *)
Theorem drawCanvas_grid_on_blocks (zoomLevel : Q) (blockSize : Z) (columns rows : nat) :
  (2 <= zoomLevel)%Q ->
  (4 <= inject_Z blockSize * zoomLevel)%Q ->
  let sourceWidth := inject_Z (blockSize * Z.of_nat columns) in
  let sourceHeight := inject_Z (blockSize * Z.of_nat rows) in
  let drawn := drawCanvas zoomLevel sourceWidth sourceHeight (inject_Z blockSize) in
  let displayWidth := drawn.1.1 in
  let displayHeight := drawn.1.2 in
  let boundary (k : nat) := (inject_Z (Z.of_nat k) * (inject_Z blockSize * zoomLevel))%Q in
  length drawn.2 = (S columns + S rows)%nat /\
  (forall k, (k <= columns)%nat ->
     exists s, drawn.2 !! k = Some s /\
       (from_x s == boundary k)%Q /\ from_y s = 0%Q /\
       to_x s = from_x s /\ to_y s = displayHeight) /\
  (forall k, (k <= rows)%nat ->
     exists s, drawn.2 !! (S columns + k)%nat = Some s /\
       from_x s = 0%Q /\ (from_y s == boundary k)%Q /\
       to_x s = displayWidth /\ to_y s = from_y s) /\
  (boundary columns == displayWidth)%Q /\ (boundary rows == displayHeight)%Q.
Proof.
  intros Hz Hp sourceWidth sourceHeight drawn displayWidth displayHeight boundary.
  assert (Hp0 : (0 < inject_Z blockSize * zoomLevel)%Q) by lra.
  assert (Hw : (sourceWidth * zoomLevel == nthStep columns (inject_Z blockSize * zoomLevel))%Q).
  { unfold nthStep, sourceWidth. rewrite inject_Z_mult. ring. }
  assert (Hh : (sourceHeight * zoomLevel == nthStep rows (inject_Z blockSize * zoomLevel))%Q).
  { unfold nthStep, sourceHeight. rewrite inject_Z_mult. ring. }
  destruct (gridSteps_blocks columns _ _ Hp0 Hw) as [HlenX HnthX].
  destruct (gridSteps_blocks rows _ _ Hp0 Hh) as [HlenY HnthY].
  assert (Hdrawn : drawn.2 =
    ((fun x => mkStroke x 0 x (sourceHeight * zoomLevel)) <$>
       gridSteps (gridFuel (sourceWidth * zoomLevel) (inject_Z blockSize * zoomLevel)) 0
         (sourceWidth * zoomLevel) (inject_Z blockSize * zoomLevel)) ++
    ((fun y => mkStroke 0 y (sourceWidth * zoomLevel) y) <$>
       gridSteps (gridFuel (sourceHeight * zoomLevel) (inject_Z blockSize * zoomLevel)) 0
         (sourceHeight * zoomLevel) (inject_Z blockSize * zoomLevel))).
  { subst drawn. unfold drawCanvas. cbn [snd].
    assert (E : Qle_bool 2 zoomLevel = true) by by apply Qle_bool_iff.
    rewrite E. unfold drawGrid.
    destruct (Qlt_le_dec (inject_Z blockSize * zoomLevel) 4); [lra|done]. }
  rewrite Hdrawn. clear Hdrawn.
  split; [by rewrite length_app, !length_fmap, HlenX, HlenY|].
  split; [|split; [|split]].
  - intros k Hk. destruct (HnthX k Hk) as (v & Hv & Hq).
    exists (mkStroke v 0 v (sourceHeight * zoomLevel)). split.
    + rewrite lookup_app_l by (rewrite length_fmap, HlenX; lia).
      by rewrite list_lookup_fmap, Hv.
    + done.
  - intros k Hk. destruct (HnthY k Hk) as (v & Hv & Hq).
    exists (mkStroke 0 v (sourceWidth * zoomLevel) v). split.
    + rewrite lookup_app_r by (rewrite length_fmap, HlenX; lia).
      rewrite length_fmap, HlenX.
      replace (S columns + k - S columns)%nat with k by lia.
      by rewrite list_lookup_fmap, Hv.
    + done.
  - subst displayWidth drawn. cbn. by rewrite Hw.
  - subst displayHeight drawn. cbn. by rewrite Hh.
Qed.

Lemma drawCanvas_grid_on_blocks_witness :
  let drawn := drawCanvas 2 (inject_Z (4 * Z.of_nat 3)) (inject_Z (4 * Z.of_nat 2)) (inject_Z 4) in
  let boundary (k : nat) := (inject_Z (Z.of_nat k) * (inject_Z 4 * 2))%Q in
  length drawn.2 = (4 + 3)%nat /\
  (forall k, (k <= 3)%nat ->
     exists s, drawn.2 !! k = Some s /\
       (from_x s == boundary k)%Q /\ from_y s = 0%Q /\
       to_x s = from_x s /\ to_y s = drawn.1.2) /\
  (forall k, (k <= 2)%nat ->
     exists s, drawn.2 !! (4 + k)%nat = Some s /\
       from_x s = 0%Q /\ (from_y s == boundary k)%Q /\
       to_x s = drawn.1.1 /\ to_y s = from_y s) /\
  (boundary 3%nat == drawn.1.1)%Q /\ (boundary 2%nat == drawn.1.2)%Q.
Proof.
  apply (drawCanvas_grid_on_blocks 2 4 3 2); done.
Defined.

(** drawCanvas draws no grid line exactly when the zoom is below 2 or a
    displayed block is smaller than 4 pixels: with a block size of 1 the grid
    appears from a zoom of 4. *)
Theorem drawCanvas_grid_condition (zoomLevel sourceWidth sourceHeight currentBlockSize : Q) :
  (0 <= sourceWidth)%Q ->
  (drawCanvas zoomLevel sourceWidth sourceHeight currentBlockSize).2 = [] <->
  (zoomLevel < 2 \/ currentBlockSize * zoomLevel < 4)%Q.
Proof.
  intros Hw. unfold drawCanvas. cbn [snd].
  destruct (Qle_bool 2 zoomLevel) eqn:E.
  - apply Qle_bool_iff in E. unfold drawGrid.
    destruct (Qlt_le_dec (currentBlockSize * zoomLevel) 4) as [Hlt|Hge].
    + split; [by right|done].
    + split; [|lra]. intros Hnil. exfalso.
      assert (H0 : (0 <= sourceWidth * zoomLevel)%Q).
      { apply Qmult_le_0_compat; lra. }
      destruct (gridSteps_run (sourceWidth * zoomLevel) (currentBlockSize * zoomLevel)
                  ltac:(lra) H0) as [Hlen _].
      apply (f_equal length) in Hnil. rewrite length_app, !length_fmap, Hlen in Hnil.
      cbn in Hnil. lia.
  - split; [|done]. intros _. left.
    destruct (Qlt_le_dec zoomLevel 2) as [Hlt|Hge]; [done|].
    apply Qle_bool_iff in Hge. congruence.
Qed.

Lemma drawCanvas_grid_condition_witness :
  (drawCanvas 2 100 50 1).2 = [] <-> (2 < 2 \/ 1 * 2 < 4)%Q.
Proof. apply (drawCanvas_grid_condition 2 100 50 1). done. Defined.
